(** * RecordManager: the per-file processing log of the organizer

    A shallow embedding of the [RecordManager] class (the registry that
    tracks every file on its way through the processing pipeline) and the
    properties of its operations.

    Modelling choices, each taken from the TypeScript source:

    - [records] is a [Map<string, FileRecord>]: a finite map keyed by the
      file hash.  No property below depends on the iteration order of that
      map, so it is a [gmap].
    - [logs] is a plain JavaScript object indexed by the string value of an
      [Action].  Its own keys iterate in the order in which they were first
      written, and writing to a key that exists keeps its place.  Order
      matters to [getLastStep], [getStepErrors] and [getLastError], so the
      object is an association list with exactly that write discipline.
    - [tags] is a JavaScript array, held by reference: [setTags] stores the
      very array it is given and [addTag] pushes onto whatever array the
      record holds.  Arrays therefore live in a store and a record holds a
      reference into it.
    - [moment()] reads the wall clock.  What it reads is an argument of the
      two operations that take a timestamp.

    The singleton accessor and the unused [idService] member carry no state
    of their own and are left out.  The queries over all records
    ([getAllRecords], [getRecordsWithErrors], [getRecordsByStep]) do depend
    on the iteration order of [records]; for them the state is paired with
    that order (see [Registry]). *)

From Stdlib Require Import ZArith Lia.
From stdpp Require Import base option list strings gmap.

Local Open Scope string_scope.
Local Open Scope list_scope.

(** ** JavaScript values *)

(** Truthiness of a string: every string but the empty one. *)
Definition truthy (s : string) : bool :=
  match s with
  | EmptyString => false
  | String _ _ => true
  end.

(** A call either returns or throws ([TypeError] on reading a property of
    [undefined] is the only exception the class could raise). *)
Inductive Outcome (A : Type) : Type :=
  | Returns (a : A)
  | Throws.
Arguments Returns {A} a.
Arguments Throws {A}.

Definition Outcome_bind {A B : Type} (o : Outcome A) (k : A → Outcome B) : Outcome B :=
  match o with
  | Returns a => k a
  | Throws => Throws
  end.

(** ** Objects with ordered own keys *)

Section JsObject.
Context {K V : Type} `{EqDecision K}.

(** [o[k]] *)
Fixpoint obj_get (k : K) (o : list (K * V)) : option V :=
  match o with
  | [] => None
  | (k', v) :: o' => if decide (k = k') then Some v else obj_get k o'
  end.

(** [o[k] = v]: an existing key keeps its position, a new key goes last. *)
Fixpoint obj_set (k : K) (v : V) (o : list (K * V)) : list (K * V) :=
  match o with
  | [] => [(k, v)]
  | (k', v') :: o' =>
      if decide (k = k') then (k', v) :: o' else (k', v') :: obj_set k v o'
  end.

(** [Object.keys(o)], [Object.values(o)], [Object.entries(o)] *)
Definition Object_keys (o : list (K * V)) : list K := o.*1.
Definition Object_values (o : list (K * V)) : list V := o.*2.
Definition Object_entries (o : list (K * V)) : list (K * V) := o.

(** How many own entries carry the key [k]. *)
Definition obj_count (k : K) (o : list (K * V)) : nat :=
  length (filter (λ p, p.1 = k) o).
End JsObject.

(** ** The data model *)

(** The union of string literals ["queued" | "processing" | "completed" |
    "error" | "bypassed"]. *)
Inductive FileStatus : Set :=
  | Queued
  | Processing
  | Completed
  | Error
  | Bypassed.

Inductive Action : Set :=
  | CLEANUP
  | CLEANUP_DONE
  | RENAME
  | RENAME_DONE
  | EXTRACT
  | EXTRACT_DONE
  | MOVING_ATTACHMENT
  | MOVING_ATTACHEMENT_DONE
  | CLASSIFY
  | CLASSIFY_DONE
  | TAGGING
  | TAGGING_DONE
  | APPLYING_TAGS
  | APPLYING_TAGS_DONE
  | RECOMMEND_NAME
  | RECOMMEND_NAME_DONE
  | CONTAINER
  | APPEND
  | APPEND_DONE
  | ERROR_APPEND
  | ERROR_COMPLETE
  | ERROR_VALIDATE
  | ERROR_CONTAINER
  | CONTAINER_DONE
  | APPLYING_NAME
  | APPLYING_NAME_DONE
  | FORMATTING
  | FORMATTING_DONE
  | MOVING
  | MOVING_DONE
  | COMPLETED
  | VALIDATE
  | VALIDATE_DONE
  | ERROR_CLEANUP
  | ERROR_RENAME
  | ERROR_EXTRACT
  | ERROR_MOVING_ATTACHMENT
  | ERROR_CLASSIFY
  | ERROR_TAGGING
  | ERROR_FORMATTING
  | ERROR_MOVING.

(** The string each member of the enum stands for; this string is the key
    under which the member is stored in [logs]. *)
Definition Action_value (a : Action) : string :=
  match a with
  | CLEANUP => "Cleaning up file..."
  | CLEANUP_DONE => "File cleaned up"
  | RENAME => "Renaming file..."
  | RENAME_DONE => "File renamed"
  | EXTRACT => "Extracting content..."
  | EXTRACT_DONE => "Content extracted"
  | MOVING_ATTACHMENT => "Moving attachments..."
  | MOVING_ATTACHEMENT_DONE => "Attachments moved"
  | CLASSIFY => "Analyzing document type..."
  | CLASSIFY_DONE => "Document type identified"
  | TAGGING => "Generating tags..."
  | TAGGING_DONE => "Tags generated"
  | APPLYING_TAGS => "Applying tags..."
  | APPLYING_TAGS_DONE => "Tags applied"
  | RECOMMEND_NAME => "Generating file name..."
  | RECOMMEND_NAME_DONE => "File name generated"
  | CONTAINER => "Creating document container..."
  | APPEND => "Appending content..."
  | APPEND_DONE => "Content appended"
  | ERROR_APPEND => "Failed to append content"
  | ERROR_COMPLETE => "Processing failed"
  | ERROR_VALIDATE => "Failed to validate document"
  | ERROR_CONTAINER => "Failed to create container"
  | CONTAINER_DONE => "Container created"
  | APPLYING_NAME => "Applying new name..."
  | APPLYING_NAME_DONE => "New name applied"
  | FORMATTING => "Formatting content..."
  | FORMATTING_DONE => "Content formatted"
  | MOVING => "Moving to final location..."
  | MOVING_DONE => "File moved successfully"
  | COMPLETED => "Processing completed"
  | VALIDATE => "Validating document..."
  | VALIDATE_DONE => "Document validated"
  | ERROR_CLEANUP => "Failed to clean up file"
  | ERROR_RENAME => "Failed to rename file"
  | ERROR_EXTRACT => "Failed to extract content"
  | ERROR_MOVING_ATTACHMENT => "Failed to move attachments"
  | ERROR_CLASSIFY => "Failed to analyze document type"
  | ERROR_TAGGING => "Failed to generate tags"
  | ERROR_FORMATTING => "Failed to format content"
  | ERROR_MOVING => "Failed to move file"
  end.

Global Instance Action_eq_dec : EqDecision Action.
Proof. solve_decision. Defined.

(** The member [timestamp] holds the text that
    [moment().format("YYYY-MM-DD HH:mm:ss")] writes: the reading of the local
    wall clock, cut to whole seconds.  [getLastStep] never compares the texts:
    it reads each back with [moment(text)] and compares what they denote.
    The embedding keeps what the text denotes, the reading counted in
    seconds, in place of the text. *)
Definition Timestamp : Set := Z.

(** [moment(a).isAfter(moment(b))]: strictly later. *)
Definition isAfter (a b : Timestamp) : bool := (b <? a)%Z.

(** Obsidian's file handle; the registry only stores it. *)
Inductive TFile : Set :=
  | TFile_at (path : string).

(** The [error] member of a log entry. *)
Record ErrorInfo : Set := {
  message : string;
  stack : option string;
  action : Action;
}.

Record LogEntry : Set := {
  timestamp : Timestamp;
  completed : option bool;
  error : option ErrorInfo;
}.

(** A reference to a [string[]] in the store. *)
Abbreviation ArrayRef := nat.

Record FileRecord : Set := {
  id : string;
  tags : ArrayRef;
  classification : option string;
  formatted : bool;
  newPath : option string;
  newName : option string;
  originalName : string;
  logs : list (Action * LogEntry);
  status : FileStatus;
  file : option TFile;
}.

(** The state the class works on: its [records] map and the string arrays
    that the [tags] members refer to. *)
Record State : Type := {
  records : gmap string FileRecord;
  arrays : list (list string);
}.

(** ** Assignments to one member *)

Definition set_completed (c : bool) (e : LogEntry) : LogEntry :=
  {| timestamp := timestamp e; completed := Some c; error := error e |}.

Definition set_file (f : TFile) (r : FileRecord) : FileRecord :=
  {| id := id r; tags := tags r; classification := classification r;
     formatted := formatted r; newPath := newPath r; newName := newName r;
     originalName := originalName r; logs := logs r; status := status r;
     file := Some f |}.

Definition set_status (s : FileStatus) (r : FileRecord) : FileRecord :=
  {| id := id r; tags := tags r; classification := classification r;
     formatted := formatted r; newPath := newPath r; newName := newName r;
     originalName := originalName r; logs := logs r; status := s;
     file := file r |}.

Definition set_logs (l : list (Action * LogEntry)) (r : FileRecord) : FileRecord :=
  {| id := id r; tags := tags r; classification := classification r;
     formatted := formatted r; newPath := newPath r; newName := newName r;
     originalName := originalName r; logs := l; status := status r;
     file := file r |}.

Definition set_tags (t : ArrayRef) (r : FileRecord) : FileRecord :=
  {| id := id r; tags := t; classification := classification r;
     formatted := formatted r; newPath := newPath r; newName := newName r;
     originalName := originalName r; logs := logs r; status := status r;
     file := file r |}.

Definition set_classification (c : string) (r : FileRecord) : FileRecord :=
  {| id := id r; tags := tags r; classification := Some c;
     formatted := formatted r; newPath := newPath r; newName := newName r;
     originalName := originalName r; logs := logs r; status := status r;
     file := file r |}.

Definition set_formatted (b : bool) (r : FileRecord) : FileRecord :=
  {| id := id r; tags := tags r; classification := classification r;
     formatted := b; newPath := newPath r; newName := newName r;
     originalName := originalName r; logs := logs r; status := status r;
     file := file r |}.

Definition set_newPath (p : string) (r : FileRecord) : FileRecord :=
  {| id := id r; tags := tags r; classification := classification r;
     formatted := formatted r; newPath := Some p; newName := newName r;
     originalName := originalName r; logs := logs r; status := status r;
     file := file r |}.

Definition set_newName (n : string) (r : FileRecord) : FileRecord :=
  {| id := id r; tags := tags r; classification := classification r;
     formatted := formatted r; newPath := newPath r; newName := Some n;
     originalName := originalName r; logs := logs r; status := status r;
     file := file r |}.

(** A record is an object held by the map: a write to one of its members
    is seen through the map. *)
Definition update_record (hash : string) (r : FileRecord) (st : State) : State :=
  {| records := <[hash := r]> (records st); arrays := arrays st |}.

(** The array a reference points to. *)
Definition deref (st : State) (t : ArrayRef) : list string :=
  default [] (arrays st !! t).

(** The tag collection of a record. *)
Definition tags_of (st : State) (r : FileRecord) : list string :=
  deref st (tags r).

(** [a.includes(x)] and [a.push(x)] *)
Definition Array_includes (x : string) (a : list string) : bool :=
  bool_decide (x ∈ a).
Definition Array_push (x : string) (a : list string) : list string :=
  a ++ [x].

(** A new array literal: it gets the next free reference. *)
Definition new_array (a : list string) (st : State) : ArrayRef * State :=
  (length (arrays st), {| records := records st; arrays := arrays st ++ [a] |}).

(** ** The class *)

Module RecordManager.

(** [new RecordManager()]: no record; no array has been built yet. *)
Definition init : State := {| records := ∅; arrays := [] |}.

Definition startTracking (hash originalName : string) (st : State)
  : string * State :=
  match records st !! hash with
  | None =>
      let '(fresh, st1) := new_array [] st in
      (hash,
       update_record hash
         {| id := hash; file := None; tags := fresh; formatted := false;
            logs := []; status := Queued; originalName := originalName;
            classification := None; newPath := None; newName := None |}
         st1)
  | Some _ => (hash, st)
  end.

Definition setFile (hash : string) (file : TFile) (st : State) : State :=
  match records st !! hash with
  | Some record => update_record hash (set_file file record) st
  | None => st
  end.

Definition setStatus (hash : string) (status : FileStatus) (st : State) : State :=
  match records st !! hash with
  | Some record => update_record hash (set_status status record) st
  | None => st
  end.

(** The table [reverseMap]; a member without a line in it reads as
    [undefined]. *)
Definition getBaseAction (completedStep : Action) : option Action :=
  match completedStep with
  | CLEANUP_DONE => Some CLEANUP
  | RENAME_DONE => Some RENAME
  | EXTRACT_DONE => Some EXTRACT
  | MOVING_ATTACHEMENT_DONE => Some MOVING_ATTACHMENT
  | CLASSIFY_DONE => Some CLASSIFY
  | TAGGING_DONE => Some TAGGING
  | APPLYING_TAGS_DONE => Some APPLYING_TAGS
  | RECOMMEND_NAME_DONE => Some RECOMMEND_NAME
  | APPLYING_NAME_DONE => Some APPLYING_NAME
  | FORMATTING_DONE => Some FORMATTING
  | MOVING_DONE => Some MOVING
  | _ => None
  end.

(** [now] is what [moment()] reads during the call.  An entry is an
    object, hence truthy, so [record.logs[baseAction]] is truthy exactly
    when the key is there. *)
Definition addAction (hash : string) (step : Action) (completed : bool)
    (now : Timestamp) (st : State) : State :=
  match records st !! hash with
  | Some record =>
      let in_progress :=
        update_record hash
          (set_logs
             (obj_set step
                {| timestamp := now; completed := Some completed; error := None |}
                (logs record))
             record)
          st in
      if completed then
        match getBaseAction step with
        | Some baseAction =>
            if truthy (Action_value baseAction) then
              match obj_get baseAction (logs record) with
              | Some entry =>
                  update_record hash
                    (set_logs
                       (obj_set baseAction (set_completed true entry) (logs record))
                       record)
                    st
              | None => in_progress
              end
            else in_progress
        | None => in_progress
        end
      else in_progress
  | None => st
  end.

Definition addTag (hash tag : string) (st : State) : State :=
  match records st !! hash with
  | Some record =>
      if negb (Array_includes tag (tags_of st record)) then
        {| records := records st;
           arrays := alter (Array_push tag) (tags record) (arrays st) |}
      else st
  | None => st
  end.

(** [tags] is the array the caller passes, by reference. *)
Definition setTags (hash : string) (tags : ArrayRef) (st : State) : State :=
  match records st !! hash with
  | Some record => update_record hash (set_tags tags record) st
  | None => st
  end.

Definition setClassification (hash classification : string) (st : State) : State :=
  match records st !! hash with
  | Some record => update_record hash (set_classification classification record) st
  | None => st
  end.

Definition setFormatted (hash : string) (formatted : bool) (st : State) : State :=
  match records st !! hash with
  | Some record => update_record hash (set_formatted formatted record) st
  | None => st
  end.

Definition setNewPath (hash newPath : string) (st : State) : State :=
  match records st !! hash with
  | Some record => update_record hash (set_newPath newPath record) st
  | None => st
  end.

Definition setNewName (hash newName : string) (st : State) : State :=
  match records st !! hash with
  | Some record => update_record hash (set_newName newName record) st
  | None => st
  end.

Definition getRecord (hash : string) (st : State) : option FileRecord :=
  records st !! hash.

(** [!!log.error] *)
Definition has_error (log : LogEntry) : bool :=
  match error log with
  | Some _ => true
  | None => false
  end.

Definition hasErrors (hash : string) (step : option Action) (st : State) : bool :=
  match records st !! hash with
  | None => false
  | Some record =>
      match step with
      | Some s =>
          if truthy (Action_value s) then
            match obj_get s (logs record) with
            | Some log => has_error log
            | None => false
            end
          else existsb has_error (Object_values (logs record))
      | None => existsb has_error (Object_values (logs record))
      end
  end.

Definition getStepLogs (hash : string) (step : Action) (st : State) : option LogEntry :=
  match records st !! hash with
  | None => None
  | Some record => obj_get step (logs record)
  end.

(** One turn of the [reduce] callback.  Reading [.timestamp] of a missing
    [record.logs[latest]] would throw. *)
Definition later_step (record : FileRecord) (latest : option Action)
    (entry : Action * LogEntry) : Outcome (option Action) :=
  let '(action, log) := entry in
  match latest with
  | None => Returns (Some action)
  | Some l =>
      if negb (truthy (Action_value l)) then Returns (Some action)
      else
        match obj_get l (logs record) with
        | None => Throws
        | Some current =>
            if isAfter (timestamp log) (timestamp current)
            then Returns (Some action)
            else Returns (Some l)
        end
  end.

Definition getLastStep (hash : string) (st : State) : Outcome (option Action) :=
  match records st !! hash with
  | None => Returns None
  | Some record =>
      let steps := Object_entries (logs record) in
      if (length steps =? 0)%nat then Returns None
      else
        foldl (λ acc entry, Outcome_bind acc (λ latest, later_step record latest entry))
              (Returns None) steps
  end.

Definition addError (hash : string) (error : ErrorInfo) (now : Timestamp)
    (st : State) : State :=
  match records st !! hash with
  | Some record =>
      update_record hash
        (set_logs
           (obj_set (action error)
              {| timestamp := now;
                 completed := Some false;
                 error := Some {| message := message error;
                                  stack := stack error;
                                  action := action error |} |}
              (logs record))
           record)
        st
  | None => st
  end.

Definition getStepErrors (hash : string) (st : State)
  : list (Action * option ErrorInfo) :=
  match records st !! hash with
  | None => []
  | Some record =>
      (λ entry : Action * LogEntry, (entry.1, error entry.2))
        <$> filter (λ entry : Action * LogEntry, has_error entry.2 = true)
                   (Object_entries (logs record))
  end.

Definition getLastError (hash : string) (st : State)
  : option (Action * option ErrorInfo) :=
  let errors := getStepErrors hash st in
  if (0 <? length errors)%nat then errors !! (length errors - 1)%nat else None.

End RecordManager.

(** ** Sequences of calls *)

(** What a client of the registry does to the state: it builds an array of
    its own (to hand to [setTags]) and it calls the methods that write.  The
    methods that only read leave the state as it is.  Once built, an array
    changes through [addTag] only: a client that writes to an array after it
    has handed it over acts behind the back of the registry, and no call
    stands for that. *)
Inductive Call : Type :=
  | NewArray (a : list string)
  | StartTracking (hash originalName : string)
  | SetFile (hash : string) (file : TFile)
  | SetStatus (hash : string) (status : FileStatus)
  | AddAction (hash : string) (step : Action) (completed : bool) (now : Timestamp)
  | AddTag (hash tag : string)
  | SetTags (hash : string) (tags : ArrayRef)
  | SetClassification (hash classification : string)
  | SetFormatted (hash : string) (formatted : bool)
  | SetNewPath (hash newPath : string)
  | SetNewName (hash newName : string)
  | AddError (hash : string) (error : ErrorInfo) (now : Timestamp).

Definition exec (c : Call) (st : State) : State :=
  match c with
  | NewArray a => (new_array a st).2
  | StartTracking hash originalName => (RecordManager.startTracking hash originalName st).2
  | SetFile hash file => RecordManager.setFile hash file st
  | SetStatus hash status => RecordManager.setStatus hash status st
  | AddAction hash step completed now => RecordManager.addAction hash step completed now st
  | AddTag hash tag => RecordManager.addTag hash tag st
  | SetTags hash tags => RecordManager.setTags hash tags st
  | SetClassification hash c => RecordManager.setClassification hash c st
  | SetFormatted hash b => RecordManager.setFormatted hash b st
  | SetNewPath hash p => RecordManager.setNewPath hash p st
  | SetNewName hash n => RecordManager.setNewName hash n st
  | AddError hash error now => RecordManager.addError hash error now st
  end.

(** A reference passed to [setTags] is a reference to an array that exists. *)
Definition admissible (st : State) (c : Call) : Prop :=
  match c with
  | SetTags _ tags => tags < length (arrays st)
  | _ => True
  end.

Global Instance admissible_dec st c : Decision (admissible st c).
Proof. destruct c; simpl; apply _. Defined.

(** The state after the calls [cs], made in this order from [st]; there is
    none if one of the calls is not admissible. *)
Fixpoint run (cs : list Call) (st : State) : option State :=
  match cs with
  | [] => Some st
  | c :: cs' => if decide (admissible st c) then run cs' (exec c st) else None
  end.

(** The states a client can bring a new registry to. *)
Definition reachable (st : State) : Prop :=
  ∃ cs, run cs RecordManager.init = Some st.

(** What [c] hands to [setTags], if [c] is such a call, is an array free of
    repeats at the time of the call. *)
Definition hands_over_NoDup (st : State) (c : Call) : Prop :=
  match c with
  | SetTags _ tags => NoDup (deref st tags)
  | _ => True
  end.

(** The same for every call of [cs], made in this order from [st]. *)
Fixpoint setTags_given_NoDup (cs : list Call) (st : State) : Prop :=
  match cs with
  | [] => True
  | c :: cs' => hands_over_NoDup st c ∧ setTags_given_NoDup cs' (exec c st)
  end.

(** ** Statements under test *)

(** The pairing property read literally: after [addAction(id, S)] and then
    [addAction(id, S_DONE, true)] the pair [S]/[S_DONE] has exactly one
    entry, it is keyed by [S], it is completed and carries the timestamp of
    the first call. *)
Definition pairing_as_stated (st : State) (hash : string) (S S_DONE : Action)
    (now1 now2 : Timestamp) : Prop :=
  let st' :=
    RecordManager.addAction hash S_DONE true now2
      (RecordManager.addAction hash S false now1 st) in
  ∃ r e, records st' !! hash = Some r
         ∧ obj_count S (logs r) + obj_count S_DONE (logs r) = 1
         ∧ obj_get S (logs r) = Some e
         ∧ completed e = Some true ∧ timestamp e = now1.

(** How many times [x] occurs in the array [a]. *)
Definition occurrences (x : string) (a : list string) : nat :=
  length (filter (λ y, y = x) a).

(** [(a, e)] is an entry of [o] with the latest timestamp, and the first
    such entry in the order of [o]: what stands before it is strictly
    earlier, what stands after it is not later. *)
Definition first_latest (a : Action) (e : LogEntry) (o : list (Action * LogEntry))
  : Prop :=
  ∃ o1 o2, o = o1 ++ ((a, e) :: o2)
           ∧ Forall (λ p, (timestamp p.2 < timestamp e)%Z) o1
           ∧ Forall (λ p, (timestamp p.2 ≤ timestamp e)%Z) o2.

(** What every state of the registry satisfies (see [reachable_wf]): a
    record is stored under its own [id], [logs] has no key twice, and [tags]
    refers to an array that exists. *)
Definition wf (st : State) : Prop :=
  ∀ hash r, records st !! hash = Some r →
    id r = hash ∧ NoDup (Object_keys (logs r)) ∧ tags r < length (arrays st).

(** Every record holds a tag collection free of repeats. *)
Definition tags_NoDup (st : State) : Prop :=
  ∀ hash r, records st !! hash = Some r → NoDup (tags_of st r).

(** The tag property read literally: in every state a client can bring
    the registry to, no record has a tag twice. *)
Definition tags_never_repeat_as_stated : Prop :=
  ∀ st, reachable st → tags_NoDup st.

Global Instance hands_over_NoDup_dec st c : Decision (hands_over_NoDup st c).
Proof. destruct c; simpl; apply _. Defined.

Global Instance setTags_given_NoDup_dec cs st : Decision (setTags_given_NoDup cs st).
Proof. revert st. induction cs as [|c cs IH]; intros st; simpl; apply _. Defined.

(** ** Sample runs *)

(** The state after the calls [cs] on a new registry. *)
Definition after (cs : list Call) : State :=
  foldl (λ st c, exec c st) RecordManager.init cs.

Definition timeout_error : ErrorInfo :=
  {| message := "timeout"; stack := None; action := TAGGING |}.

(** A job is registered, its classification starts and completes, and
    tagging fails. *)
Definition scenario : list Call :=
  [ StartTracking "h1" "doc.pdf";
    AddAction "h1" CLASSIFY false 100%Z;
    AddAction "h1" CLASSIFY_DONE true 105%Z;
    AddError "h1" timeout_error 110%Z ].

Definition scenario_record : FileRecord :=
  {| id := "h1"; tags := 0; classification := None; formatted := false;
     newPath := None; newName := None; originalName := "doc.pdf";
     logs := [ (CLASSIFY, {| timestamp := 100%Z; completed := Some true; error := None |});
               (TAGGING, {| timestamp := 110%Z; completed := Some false;
                            error := Some timeout_error |}) ];
     status := Queued; file := None |}.

(** A completion is logged before its start stage ever was. *)
Definition fallback_first : list Call :=
  [ StartTracking "h1" "doc.pdf";
    AddAction "h1" CLASSIFY_DONE true 10%Z ].

Definition fallback_first_record : FileRecord :=
  {| id := "h1"; tags := 0; classification := None; formatted := false;
     newPath := None; newName := None; originalName := "doc.pdf";
     logs := [ (CLASSIFY_DONE, {| timestamp := 10%Z; completed := Some true; error := None |}) ];
     status := Queued; file := None |}.

(** Three stages are logged, two of them within the same second. *)
Definition same_second : list Call :=
  [ StartTracking "h1" "doc.pdf";
    AddAction "h1" CLEANUP false 50%Z;
    AddAction "h1" EXTRACT false 100%Z;
    AddAction "h1" CLASSIFY false 100%Z ].

Definition same_second_record : FileRecord :=
  {| id := "h1"; tags := 0; classification := None; formatted := false;
     newPath := None; newName := None; originalName := "doc.pdf";
     logs := [ (CLEANUP, {| timestamp := 50%Z; completed := Some false; error := None |});
               (EXTRACT, {| timestamp := 100%Z; completed := Some false; error := None |});
               (CLASSIFY, {| timestamp := 100%Z; completed := Some false; error := None |}) ];
     status := Queued; file := None |}.

(** The client hands over an array in which a tag occurs twice. *)
Definition repeated_tags : list Call :=
  [ StartTracking "h1" "doc.pdf";
    NewArray ["x"; "x"];
    SetTags "h1" 1 ].

(** Two records share one array of tags, and a tag is added through one of
    them. *)
Definition shared_tags : list Call :=
  [ StartTracking "h1" "doc.pdf";
    StartTracking "h2" "note.md";
    NewArray ["a"; "b"];
    SetTags "h1" 2;
    SetTags "h2" 2;
    AddTag "h1" "c";
    AddTag "h2" "a" ].

Definition shared_tags_record : FileRecord :=
  {| id := "h2"; tags := 2; classification := None; formatted := false;
     newPath := None; newName := None; originalName := "note.md";
     logs := []; status := Queued; file := None |}.

(** ** The records in iteration order *)

(** A [Map] iterates its keys in the order in which they were first set.
    The class sets a key of [records] in [startTracking] only, and only a
    key that is not there yet; every other method reaches a record through
    [get] and leaves the keys alone.  [Registry] pairs the state with the
    keys of [records] in that order. *)
Record Registry : Type := {
  contents : State;
  insertion_order : list string;
}.

Module AllRecords.

Definition init : Registry :=
  {| contents := RecordManager.init; insertion_order := [] |}.

(** The order of the keys after [records.set(hash, ...)], which
    [startTracking] performs when [records.has(hash)] is false. *)
Definition order_after (c : Call) (reg : Registry) : list string :=
  match c with
  | StartTracking hash _ =>
      match records (contents reg) !! hash with
      | None => insertion_order reg ++ [hash]
      | Some _ => insertion_order reg
      end
  | _ => insertion_order reg
  end.

Definition exec (c : Call) (reg : Registry) : Registry :=
  {| contents := exec c (contents reg); insertion_order := order_after c reg |}.

Fixpoint run (cs : list Call) (reg : Registry) : option Registry :=
  match cs with
  | [] => Some reg
  | c :: cs' =>
      if decide (admissible (contents reg) c) then run cs' (exec c reg) else None
  end.

Definition reachable (reg : Registry) : Prop := ∃ cs, run cs init = Some reg.

(** The registry after the calls [cs] on a new one. *)
Definition after (cs : list Call) : Registry :=
  foldl (λ reg c, exec c reg) init cs.

(** [Array.from(this.records.values())] *)
Definition getAllRecords (reg : Registry) : list FileRecord :=
  omap (λ hash, records (contents reg) !! hash) (insertion_order reg).

Definition getRecordsWithErrors (reg : Registry) : list FileRecord :=
  filter (λ record : FileRecord,
            existsb RecordManager.has_error (Object_values (logs record)) = true)
         (getAllRecords reg).

(** [!!record.logs[step]]: an entry is an object, hence truthy. *)
Definition getRecordsByStep (step : Action) (reg : Registry) : list FileRecord :=
  filter (λ record : FileRecord, is_Some (obj_get step (logs record)))
         (getAllRecords reg).

End AllRecords.

(** The calls that write to the event mapping of a record. *)
Definition writes_events (c : Call) : bool :=
  match c with
  | AddAction _ _ _ _ | AddError _ _ _ => true
  | _ => false
  end.

(** The job a call of a method is about ([None] for an array the client
    builds). *)
Definition call_hash (c : Call) : option string :=
  match c with
  | NewArray _ => None
  | StartTracking hash _ | SetFile hash _ | SetStatus hash _
  | AddAction hash _ _ _ | AddTag hash _ | SetTags hash _
  | SetClassification hash _ | SetFormatted hash _ | SetNewPath hash _
  | SetNewName hash _ | AddError hash _ _ => Some hash
  end.

(** The value the last call among [cs] gives, for the calls [pick] picks a
    value of. *)
Definition last_given {A : Type} (pick : Call → option A) (cs : list Call)
  : option A :=
  last (omap pick cs).

(** What a call gives to a member of the record of [hash], if it is the
    setter of that member called for [hash]. *)
Definition gives_file (hash : string) (c : Call) : option TFile :=
  match c with
  | SetFile h file => if decide (h = hash) then Some file else None
  | _ => None
  end.

Definition gives_status (hash : string) (c : Call) : option FileStatus :=
  match c with
  | SetStatus h status => if decide (h = hash) then Some status else None
  | _ => None
  end.

Definition gives_classification (hash : string) (c : Call) : option string :=
  match c with
  | SetClassification h classification =>
      if decide (h = hash) then Some classification else None
  | _ => None
  end.

Definition gives_formatted (hash : string) (c : Call) : option bool :=
  match c with
  | SetFormatted h formatted => if decide (h = hash) then Some formatted else None
  | _ => None
  end.

Definition gives_newPath (hash : string) (c : Call) : option string :=
  match c with
  | SetNewPath h newPath => if decide (h = hash) then Some newPath else None
  | _ => None
  end.

Definition gives_newName (hash : string) (c : Call) : option string :=
  match c with
  | SetNewName h newName => if decide (h = hash) then Some newName else None
  | _ => None
  end.

Definition gives_tags (hash : string) (c : Call) : option ArrayRef :=
  match c with
  | SetTags h tags => if decide (h = hash) then Some tags else None
  | _ => None
  end.


(** The event mapping of a job, empty for a job that is not registered. *)
Definition event_log (hash : string) (st : State) : list (Action * LogEntry) :=
  match records st !! hash with
  | Some record => logs record
  | None => []
  end.

(** The name given by the first [startTracking(hash, name)] among [cs]. *)
Definition first_registration (hash : string) (cs : list Call) : option string :=
  head (omap (λ c, match c with
                   | StartTracking h name => if decide (h = hash) then Some name else None
                   | _ => None
                   end) cs).

(** The ids given to [startTracking] among [cs], in the order of the calls. *)
Definition started (cs : list Call) : list string :=
  omap (λ c, match c with StartTracking hash _ => Some hash | _ => None end) cs.

(** The elements of [l] that are not in [seen], each at its first
    occurrence. *)
Fixpoint first_occurrences (seen l : list string) : list string :=
  match l with
  | [] => []
  | h :: l' =>
      if decide (h ∈ seen) then first_occurrences seen l'
      else h :: first_occurrences (seen ++ [h]) l'
  end.

(** The order kept beside the state is the order of the keys of [records]:
    it has each key once and nothing else. *)
Definition order_wf (reg : Registry) : Prop :=
  NoDup (insertion_order reg)
  ∧ ∀ hash, hash ∈ insertion_order reg ↔ is_Some (records (contents reg) !! hash).

(** The calls of [setTags]. *)
Definition is_setTags (c : Call) : bool :=
  match c with
  | SetTags _ _ => true
  | _ => false
  end.

(** No two records hold the same array of tags. *)
Definition tags_separate (st : State) : Prop :=
  ∀ h1 h2 r1 r2, records st !! h1 = Some r1 → records st !! h2 = Some r2 →
                 tags r1 = tags r2 → h1 = h2.

(** Two jobs are registered, one of them twice; both log stages. *)
Definition two_jobs : list Call :=
  [ StartTracking "h1" "doc.pdf";
    StartTracking "h2" "note.md";
    StartTracking "h1" "again.pdf";
    AddAction "h1" CLASSIFY false 100%Z;
    AddError "h1" timeout_error 110%Z;
    AddAction "h2" CLASSIFY false 120%Z;
    AddTag "h1" "x" ].

Definition two_jobs_h1 : FileRecord :=
  {| id := "h1"; tags := 0; classification := None; formatted := false;
     newPath := None; newName := None; originalName := "doc.pdf";
     logs := [ (CLASSIFY, {| timestamp := 100%Z; completed := Some false; error := None |});
               (TAGGING, {| timestamp := 110%Z; completed := Some false;
                            error := Some timeout_error |}) ];
     status := Queued; file := None |}.

Definition two_jobs_h2 : FileRecord :=
  {| id := "h2"; tags := 1; classification := None; formatted := false;
     newPath := None; newName := None; originalName := "note.md";
     logs := [ (CLASSIFY, {| timestamp := 120%Z; completed := Some false; error := None |}) ];
     status := Queued; file := None |}.

Definition shared_tags_h1 : FileRecord :=
  {| id := "h1"; tags := 2; classification := None; formatted := false;
     newPath := None; newName := None; originalName := "doc.pdf";
     logs := []; status := Queued; file := None |}.

(** Calls that follow the scenario. *)
Definition follow_up : list Call :=
  [ AddAction "h1" RENAME false 120%Z;
    SetStatus "h1" Processing;
    AddAction "h1" TAGGING false 125%Z ].

Definition late_error : ErrorInfo :=
  {| message := "late"; stack := None; action := CLASSIFY |}.

(** Calls for two jobs in turn, after the scenario. *)
Definition interleaved : list Call :=
  [ StartTracking "h2" "note.md";
    SetStatus "h1" Processing;
    AddAction "h2" CLASSIFY false 120%Z;
    SetNewName "h1" "report.pdf";
    NewArray ["a"];
    SetTags "h2" 2;
    SetStatus "h2" Error;
    SetStatus "h1" Completed;
    AddError "h1" late_error 130%Z ].

(** * Properties *)

(** ** Keys of [logs] *)

(** Two members of the enum never share a key of [logs]. *)
Lemma Action_value_inj : Inj (=) (=) Action_value.
Proof. intros [] [] H; first [reflexivity | discriminate H]. Qed.

(** Every member of the enum is a truthy string. *)
Lemma Action_value_truthy (a : Action) : truthy (Action_value a) = true.
Proof. by destruct a. Qed.

(** ** Reading and writing an object *)

Section JsObjectFacts.
Context {K V : Type} `{EqDecision K}.
Implicit Types (k : K) (v : V) (o : list (K * V)).

Lemma obj_get_set_eq k v o : obj_get k (obj_set k v o) = Some v.
Proof.
  induction o as [|[k' v'] o IH]; simpl.
  - by rewrite decide_True.
  - case_decide; simpl.
    + subst. by rewrite decide_True.
    + by rewrite decide_False.
Qed.

Lemma obj_get_set_ne k k' v o :
  k ≠ k' → obj_get k' (obj_set k v o) = obj_get k' o.
Proof.
  intros Hne. induction o as [|[k0 v0] o IH]; simpl.
  - rewrite decide_False; [done | congruence].
  - destruct (decide (k = k0)) as [->|]; simpl.
    + by rewrite !decide_False by congruence.
    + by rewrite IH.
Qed.

Lemma obj_get_None k o : obj_get k o = None ↔ k ∉ Object_keys o.
Proof.
  unfold Object_keys. induction o as [|[k' v'] o IH]; simpl.
  - split; [intros _; apply not_elem_of_nil | done].
  - rewrite not_elem_of_cons. case_decide as Hk.
    + split; [done | intros [? _]; done].
    + rewrite IH. split; [by split | by intros [_ ?]].
Qed.

Lemma obj_get_Some k o : is_Some (obj_get k o) ↔ k ∈ Object_keys o.
Proof.
  rewrite <-not_eq_None_Some, obj_get_None.
  destruct (decide (k ∈ Object_keys o)); naive_solver.
Qed.

Lemma obj_get_elem_of k v o : obj_get k o = Some v → (k, v) ∈ o.
Proof.
  induction o as [|[k' v'] o IH]; simpl; [done|].
  case_decide; intros; simplify_eq; [left | right; auto].
Qed.

Lemma obj_get_first k v o1 o2 :
  k ∉ Object_keys o1 → obj_get k (o1 ++ (k, v) :: o2) = Some v.
Proof.
  unfold Object_keys. induction o1 as [|[k' v'] o1 IH]; simpl.
  - by rewrite decide_True.
  - rewrite not_elem_of_cons. intros [? ?]. rewrite decide_False; auto.
Qed.

Lemma elem_of_obj_get k v o :
  NoDup (Object_keys o) → (k, v) ∈ o → obj_get k o = Some v.
Proof.
  unfold Object_keys. induction o as [|[k' v'] o IH]; simpl.
  - intros _ Hin. by apply elem_of_nil in Hin.
  - rewrite NoDup_cons, elem_of_cons. intros [Hk' Hnd] [Heq|Hin].
    + simplify_eq. by rewrite decide_True.
    + rewrite decide_False; [auto|].
      intros ->. apply Hk'. apply list_elem_of_fmap. by exists (k', v).
Qed.

Lemma obj_set_new k v o : obj_get k o = None → obj_set k v o = o ++ [(k, v)].
Proof.
  induction o as [|[k' v'] o IH]; simpl; [done|].
  case_decide; [done|]. intros Hg. by rewrite IH.
Qed.

Lemma obj_set_old k v v0 o :
  obj_get k o = Some v0 →
  ∃ o1 o2, o = o1 ++ ((k, v0) :: o2) ∧ (k ∉ Object_keys o1)
           ∧ obj_set k v o = o1 ++ ((k, v) :: o2).
Proof.
  unfold Object_keys. induction o as [|[k' v'] o IH]; simpl; [done|].
  case_decide as Hk.
  - intros [= ->]. subst k'. exists [], o. split_and!; [done| |done].
    apply not_elem_of_nil.
  - intros Hg. destruct (IH Hg) as (o1 & o2 & -> & Hnin & ->).
    exists ((k', v') :: o1), o2. split_and!; [done| |done].
    simpl. rewrite not_elem_of_cons. auto.
Qed.

Lemma Object_keys_set k v o :
  Object_keys (obj_set k v o)
  = if decide (k ∈ Object_keys o) then Object_keys o else Object_keys o ++ [k].
Proof.
  case_decide as Hin.
  - apply obj_get_Some in Hin as [v0 Hv0].
    destruct (obj_set_old k v v0 o Hv0) as (o1 & o2 & -> & _ & ->).
    unfold Object_keys. by rewrite !fmap_app.
  - apply obj_get_None in Hin. rewrite obj_set_new by done.
    unfold Object_keys. by rewrite fmap_app.
Qed.

Lemma obj_set_NoDup k v o :
  NoDup (Object_keys o) → NoDup (Object_keys (obj_set k v o)).
Proof.
  intros Hnd. rewrite Object_keys_set. case_decide; [done|].
  apply NoDup_app. split_and!; [done| |apply NoDup_singleton].
  intros x Hx Hx'. apply list_elem_of_singleton in Hx'. by subst.
Qed.

Lemma obj_count_cons k k' v' o :
  obj_count k ((k', v') :: o)
  = (if decide (k' = k) then 1 else 0) + obj_count k o.
Proof.
  unfold obj_count. case_decide.
  - by rewrite filter_cons_True.
  - by rewrite filter_cons_False.
Qed.

Lemma obj_count_absent k o : k ∉ Object_keys o → obj_count k o = 0.
Proof.
  induction o as [|[k' v'] o IH]; [done|].
  unfold Object_keys in *. simpl. rewrite not_elem_of_cons. intros [Hne Hnin].
  rewrite obj_count_cons, decide_False by congruence. auto.
Qed.

Lemma obj_count_present k o :
  NoDup (Object_keys o) → k ∈ Object_keys o → obj_count k o = 1.
Proof.
  induction o as [|[k' v'] o IH].
  - intros _ Hin. by apply elem_of_nil in Hin.
  - change (Object_keys ((k', v') :: o)) with (k' :: Object_keys o).
    rewrite NoDup_cons, elem_of_cons, obj_count_cons.
    intros [Hk' Hnd] [->|Hin].
    + by rewrite decide_True, (obj_count_absent k' o Hk').
    + rewrite decide_False; [auto|]. by intros ->.
Qed.
Lemma obj_count_set k v o :
  NoDup (Object_keys o) → obj_count k (obj_set k v o) = 1.
Proof.
  intros Hnd. apply obj_count_present; [by apply obj_set_NoDup|].
  apply obj_get_Some. rewrite obj_get_set_eq. by eexists.
Qed.

Lemma obj_count_set_ne k k' v o :
  k ≠ k' → obj_count k' (obj_set k v o) = obj_count k' o.
Proof.
  intros Hne. induction o as [|[k0 v0] o IH]; simpl.
  - rewrite obj_count_cons, decide_False by done. done.
  - case_decide; [by rewrite !obj_count_cons|].
    by rewrite !obj_count_cons, IH.
Qed.
End JsObjectFacts.

(** ** States of the registry *)

Section StateFacts.
Implicit Types (st : State) (r : FileRecord) (hash : string).

Lemma update_record_lookup hash r st :
  records (update_record hash r st) !! hash = Some r.
Proof. apply lookup_insert_eq. Qed.

Lemma update_record_lookup_ne hash hash' r st :
  hash ≠ hash' →
  records (update_record hash r st) !! hash' = records st !! hash'.
Proof. intros. by apply lookup_insert_ne. Qed.

Lemma update_record_wf hash r r' st :
  wf st → records st !! hash = Some r →
  id r' = id r → NoDup (Object_keys (logs r')) → tags r' < length (arrays st) →
  wf (update_record hash r' st).
Proof.
  intros Hwf Hr Hid Hnd Htags h x. simpl.
  destruct (decide (hash = h)) as [->|Hne].
  - rewrite lookup_insert_eq. intros [= <-].
    destruct (Hwf h r Hr) as (? & _ & _). split_and!; [congruence|done|done].
  - rewrite lookup_insert_ne by done. apply Hwf.
Qed.

Lemma init_wf : wf RecordManager.init.
Proof. intros hash r. simpl. by rewrite lookup_empty. Qed.

Lemma new_array_wf a st : wf st → wf (new_array a st).2.
Proof.
  intros Hwf hash r Hr. simpl in *. destruct (Hwf hash r Hr) as (? & ? & ?).
  split_and!; [done|done|]. rewrite length_app. simpl. lia.
Qed.

Lemma exec_wf c st : wf st → admissible st c → wf (exec c st).
Proof.
  intros Hwf Hadm. destruct c; simpl.
  - by apply new_array_wf.
  - unfold RecordManager.startTracking.
    destruct (records st !! hash) eqn:Hr; [done|]. simpl.
    intros h x. simpl. destruct (decide (hash = h)) as [->|Hne].
    + rewrite lookup_insert_eq. intros [= <-]. simpl.
      split_and!; [done|apply NoDup_nil_2|]. rewrite length_app. simpl. lia.
    + rewrite lookup_insert_ne by done. intros Hx.
      destruct (Hwf h x Hx) as (? & ? & ?).
      split_and!; [done|done|]. rewrite length_app. simpl. lia.
  - unfold RecordManager.setFile.
    destruct (records st !! hash) as [r|] eqn:Hr; [|done].
    destruct (Hwf hash r Hr) as (? & ? & ?). by eapply update_record_wf.
  - unfold RecordManager.setStatus.
    destruct (records st !! hash) as [r|] eqn:Hr; [|done].
    destruct (Hwf hash r Hr) as (? & ? & ?). by eapply update_record_wf.
  - unfold RecordManager.addAction.
    destruct (records st !! hash) as [r|] eqn:Hr; [|done].
    destruct (Hwf hash r Hr) as (? & ? & ?).
    repeat case_match; (eapply update_record_wf; [done|done|done| |done]);
      simpl; by apply obj_set_NoDup.
  - unfold RecordManager.addTag.
    destruct (records st !! hash) as [r|] eqn:Hr; [|done].
    case_match; [|done].
    intros h x Hx. simpl in *. destruct (Hwf h x Hx) as (? & ? & ?).
    by rewrite length_alter.
  - unfold RecordManager.setTags.
    destruct (records st !! hash) as [r|] eqn:Hr; [|done].
    destruct (Hwf hash r Hr) as (? & ? & ?). by eapply update_record_wf.
  - unfold RecordManager.setClassification.
    destruct (records st !! hash) as [r|] eqn:Hr; [|done].
    destruct (Hwf hash r Hr) as (? & ? & ?). by eapply update_record_wf.
  - unfold RecordManager.setFormatted.
    destruct (records st !! hash) as [r|] eqn:Hr; [|done].
    destruct (Hwf hash r Hr) as (? & ? & ?). by eapply update_record_wf.
  - unfold RecordManager.setNewPath.
    destruct (records st !! hash) as [r|] eqn:Hr; [|done].
    destruct (Hwf hash r Hr) as (? & ? & ?). by eapply update_record_wf.
  - unfold RecordManager.setNewName.
    destruct (records st !! hash) as [r|] eqn:Hr; [|done].
    destruct (Hwf hash r Hr) as (? & ? & ?). by eapply update_record_wf.
  - unfold RecordManager.addError.
    destruct (records st !! hash) as [r|] eqn:Hr; [|done].
    destruct (Hwf hash r Hr) as (? & ? & ?).
    eapply update_record_wf; [done|done|done| |done].
    simpl. by apply obj_set_NoDup.
Qed.

Lemma run_wf cs st st' : wf st → run cs st = Some st' → wf st'.
Proof.
  revert st. induction cs as [|c cs IH]; intros st Hwf; simpl.
  - by intros [= <-].
  - case_decide; [|done]. apply IH. by apply exec_wf.
Qed.

(** Every state a client can bring the registry to is well formed. *)
Lemma reachable_wf st : reachable st → wf st.
Proof. intros [cs Hcs]. eapply run_wf; [apply init_wf | done]. Qed.

End StateFacts.

(** ** Creating a record *)

(** C3.  [startTracking(id, originalName)] always returns [id].  When no
    record for [id] exists it inserts one with status queued, an empty tag
    collection (an array of its own), an empty event mapping and no file
    handle, and touches nothing else; when a record for [id] exists the
    state, that record included, is left exactly as it was.  Hence a second
    call with the same [id], whatever the name, changes nothing. *)
Theorem startTracking_creates_once (hash name : string) (st : State) :
  let res := RecordManager.startTracking hash name st in
  res.1 = hash
  ∧ ((records st !! hash = None
      ∧ (∃ r, records res.2 !! hash = Some r
              ∧ id r = hash ∧ originalName r = name
              ∧ status r = Queued ∧ tags_of res.2 r = [] ∧ logs r = []
              ∧ file r = None ∧ formatted r = false
              ∧ classification r = None ∧ newPath r = None ∧ newName r = None
              ∧ tags r = length (arrays st))
      ∧ delete hash (records res.2) = records st
      ∧ arrays res.2 = arrays st ++ [[]])
     ∨ (is_Some (records st !! hash) ∧ res.2 = st))
  ∧ (∀ name', RecordManager.startTracking hash name' res.2 = (hash, res.2)).
Proof.
  unfold RecordManager.startTracking. simpl.
  destruct (records st !! hash) as [r|] eqn:Hr; simpl.
  - split_and!; [done | right; by split | intros ?; by rewrite Hr].
  - split_and!; [done | left | intros ?; by rewrite lookup_insert_eq].
    split_and!; [done | | by apply delete_insert_id | done].
    eexists. rewrite lookup_insert_eq. split_and!; try done.
    unfold tags_of, deref. simpl.
    by rewrite lookup_app_r, Nat.sub_diag by lia.
Qed.

(** ** Calls for an id that was never registered *)

(** C4.  When no record exists for [id], each of [setFile], [setStatus],
    [addTag], [setTags], [setClassification], [setFormatted], [setNewPath],
    [setNewName], [addAction] and [addError] returns normally and leaves the
    whole state as it was: no record is created. *)
Theorem unknown_id_is_inert (hash : string) (st : State) :
  records st !! hash = None →
  (∀ file, RecordManager.setFile hash file st = st)
  ∧ (∀ status, RecordManager.setStatus hash status st = st)
  ∧ (∀ tag, RecordManager.addTag hash tag st = st)
  ∧ (∀ tags, RecordManager.setTags hash tags st = st)
  ∧ (∀ c, RecordManager.setClassification hash c st = st)
  ∧ (∀ b, RecordManager.setFormatted hash b st = st)
  ∧ (∀ p, RecordManager.setNewPath hash p st = st)
  ∧ (∀ n, RecordManager.setNewName hash n st = st)
  ∧ (∀ step completed now, RecordManager.addAction hash step completed now st = st)
  ∧ (∀ error now, RecordManager.addError hash error now st = st).
Proof.
  intros Hnone.
  unfold RecordManager.setFile, RecordManager.setStatus, RecordManager.addTag,
    RecordManager.setTags, RecordManager.setClassification,
    RecordManager.setFormatted, RecordManager.setNewPath,
    RecordManager.setNewName, RecordManager.addAction, RecordManager.addError.
  rewrite Hnone. by split_and!.
Qed.

(** ** Writing the event mapping *)

(** C2.  For a registered id, [addError(id, {action: S, message, stack})]
    leaves under [S] exactly one entry: its timestamp is the clock reading
    of the call, its completed flag is false and its error holds the message,
    the stack and [S].  Whatever was stored under [S] before is gone; the
    entries of the other stages are as they were. *)
Theorem addError_overwrites (hash : string) (err : ErrorInfo) (now : Timestamp)
    (st : State) (r0 : FileRecord) :
  reachable st →
  records st !! hash = Some r0 →
  ∃ r, records (RecordManager.addError hash err now st) !! hash = Some r
       ∧ obj_get (action err) (logs r)
         = Some {| timestamp := now; completed := Some false;
                   error := Some {| message := message err; stack := stack err;
                                    action := action err |} |}
       ∧ obj_count (action err) (logs r) = 1
       ∧ (∀ k, k ≠ action err → obj_get k (logs r) = obj_get k (logs r0)
                                ∧ obj_count k (logs r) = obj_count k (logs r0)).
Proof.
  intros Hreach Hr. destruct (reachable_wf st Hreach hash r0 Hr) as (_ & Hnd & _).
  unfold RecordManager.addError. rewrite Hr.
  eexists. rewrite update_record_lookup. split_and!; [done| | |]; simpl.
  - apply obj_get_set_eq.
  - by apply obj_count_set.
  - intros k Hk. split; [by apply obj_get_set_ne | by apply obj_count_set_ne].
Qed.

(** No stage is its own start stage. *)
Lemma getBaseAction_ne (S S_DONE : Action) :
  RecordManager.getBaseAction S_DONE = Some S → S ≠ S_DONE.
Proof. destruct S_DONE; simpl; intros [= <-]; done. Qed.

(** The branch of [addAction] that writes an entry of its own. *)
Lemma addAction_writes (hash : string) (step : Action) (completed : bool)
    (now : Timestamp) (st : State) (r0 : FileRecord) :
  records st !! hash = Some r0 →
  (completed = true → ∀ S, RecordManager.getBaseAction step = Some S →
                           obj_get S (logs r0) = None) →
  RecordManager.addAction hash step completed now st
  = update_record hash
      (set_logs
         (obj_set step {| timestamp := now; completed := Some completed; error := None |}
            (logs r0)) r0) st.
Proof.
  intros Hr Hmiss. unfold RecordManager.addAction. rewrite Hr.
  destruct completed; [|done].
  destruct (RecordManager.getBaseAction step) as [S|] eqn:HS; [|done].
  rewrite Action_value_truthy. by rewrite (Hmiss eq_refl S eq_refl).
Qed.

(** The branch of [addAction] that completes the entry of the start stage. *)
Lemma addAction_completes (hash : string) (S S_DONE : Action) (now : Timestamp)
    (st : State) (r0 : FileRecord) (e : LogEntry) :
  records st !! hash = Some r0 →
  RecordManager.getBaseAction S_DONE = Some S →
  obj_get S (logs r0) = Some e →
  RecordManager.addAction hash S_DONE true now st
  = update_record hash
      (set_logs (obj_set S (set_completed true e) (logs r0)) r0) st.
Proof.
  intros Hr HS He. unfold RecordManager.addAction.
  by rewrite Hr, HS, Action_value_truthy, He.
Qed.

(** C5.  For a registered id and a stage whose start stage (if the table
    names one) has no entry, [addAction(id, stage, true)] returns normally
    and leaves under [stage] itself exactly one entry, with the clock reading
    of the call and completed true; the entries of the other stages are as
    they were. *)
Theorem addAction_pairing_miss (hash : string) (step : Action) (now : Timestamp)
    (st : State) (r0 : FileRecord) :
  reachable st →
  records st !! hash = Some r0 →
  (∀ S, RecordManager.getBaseAction step = Some S → obj_get S (logs r0) = None) →
  ∃ r, records (RecordManager.addAction hash step true now st) !! hash = Some r
       ∧ obj_get step (logs r)
         = Some {| timestamp := now; completed := Some true; error := None |}
       ∧ obj_count step (logs r) = 1
       ∧ (∀ k, k ≠ step → obj_get k (logs r) = obj_get k (logs r0)
                          ∧ obj_count k (logs r) = obj_count k (logs r0)).
Proof.
  intros Hreach Hr Hmiss.
  destruct (reachable_wf st Hreach hash r0 Hr) as (_ & Hnd & _).
  rewrite (addAction_writes hash step true now st r0 Hr) by (intros _; exact Hmiss).
  eexists. rewrite update_record_lookup. split_and!; [done| | |]; simpl.
  - apply obj_get_set_eq.
  - by apply obj_count_set.
  - intros k Hk. split; [by apply obj_get_set_ne | by apply obj_count_set_ne].
Qed.

(** C1, amended.  For a registered id and a pair [S]/[S_DONE] of the table,
    [addAction(id, S)] followed by [addAction(id, S_DONE, true)] leaves under
    [S] exactly one entry, completed, with the timestamp written by the first
    call.  The two calls write under no other key: what is stored under
    [S_DONE] (and under any stage other than [S]) is what was stored there
    before, so no [S_DONE] key is created. *)
Theorem addAction_pairing (hash : string) (S S_DONE : Action)
    (now1 now2 : Timestamp) (st : State) (r0 : FileRecord) :
  reachable st →
  records st !! hash = Some r0 →
  RecordManager.getBaseAction S_DONE = Some S →
  ∃ r, records (RecordManager.addAction hash S_DONE true now2
                  (RecordManager.addAction hash S false now1 st)) !! hash = Some r
       ∧ obj_get S (logs r)
         = Some {| timestamp := now1; completed := Some true; error := None |}
       ∧ obj_count S (logs r) = 1
       ∧ obj_get S_DONE (logs r) = obj_get S_DONE (logs r0)
       ∧ obj_count S_DONE (logs r) = obj_count S_DONE (logs r0)
       ∧ (∀ k, k ≠ S → obj_get k (logs r) = obj_get k (logs r0)
                       ∧ obj_count k (logs r) = obj_count k (logs r0)).
Proof.
  intros Hreach Hr HS.
  destruct (reachable_wf st Hreach hash r0 Hr) as (_ & Hnd & _).
  pose proof (getBaseAction_ne S S_DONE HS) as Hne.
  rewrite (addAction_writes hash S false now1 st r0 Hr) by done.
  erewrite addAction_completes;
    [|apply update_record_lookup|done|simpl; apply obj_get_set_eq].
  eexists. rewrite update_record_lookup.
  assert (∀ k, k ≠ S →
    obj_get k (obj_set S
      (set_completed true {| timestamp := now1; completed := Some false; error := None |})
      (obj_set S {| timestamp := now1; completed := Some false; error := None |} (logs r0)))
    = obj_get k (logs r0)
    ∧ obj_count k (obj_set S
      (set_completed true {| timestamp := now1; completed := Some false; error := None |})
      (obj_set S {| timestamp := now1; completed := Some false; error := None |} (logs r0)))
    = obj_count k (logs r0)) as Hother.
  { intros k Hk. by rewrite !obj_get_set_ne, !obj_count_set_ne. }
  split_and!; [done| | | | |]; simpl.
  - apply obj_get_set_eq.
  - apply obj_count_set. by apply obj_set_NoDup.
  - by apply Hother.
  - by apply Hother.
  - done.
Qed.

(** C9.  For a registered id and a pair [S]/[S_DONE] of the table: when the
    entry of [S] carries an error, [addAction(id, S_DONE, true)] sets its
    completed flag and leaves its timestamp and its error as they were, so
    [hasErrors(id, S)] is still true. *)
Theorem completion_keeps_error (hash : string) (S S_DONE : Action)
    (now : Timestamp) (st : State) (r0 : FileRecord) (e : LogEntry)
    (err : ErrorInfo) :
  records st !! hash = Some r0 →
  RecordManager.getBaseAction S_DONE = Some S →
  obj_get S (logs r0) = Some e →
  error e = Some err →
  let st' := RecordManager.addAction hash S_DONE true now st in
  ∃ r, records st' !! hash = Some r
       ∧ obj_get S (logs r)
         = Some {| timestamp := timestamp e; completed := Some true;
                   error := Some err |}
       ∧ RecordManager.hasErrors hash (Some S) st' = true
       ∧ (∀ k, k ≠ S → obj_get k (logs r) = obj_get k (logs r0)).
Proof.
  intros Hr HS He Herr. simpl.
  rewrite (addAction_completes hash S S_DONE now st r0 e Hr HS He).
  eexists. rewrite update_record_lookup. split_and!; [done| | |]; simpl.
  - rewrite obj_get_set_eq. unfold set_completed. by rewrite Herr.
  - unfold RecordManager.hasErrors. rewrite update_record_lookup. simpl.
    rewrite Action_value_truthy, obj_get_set_eq.
    unfold RecordManager.has_error. simpl. by rewrite Herr.
  - intros k Hk. by apply obj_get_set_ne.
Qed.

(** ** The last step *)

Section LastStep.
Variable record : FileRecord.
Hypothesis logs_NoDup : NoDup (Object_keys (logs record)).

Let turn (acc : Outcome (option Action)) (entry : Action * LogEntry) :=
  Outcome_bind acc (λ latest, RecordManager.later_step record latest entry).

(** The [reduce] from a candidate that is the first latest entry of what has
    been read so far. *)
Lemma reduce_first_latest (seen rest : list (Action * LogEntry)) (a : Action)
    (e : LogEntry) :
  logs record = seen ++ rest →
  first_latest a e seen →
  ∃ a' e', foldl turn (Returns (Some a)) rest = Returns (Some a')
           ∧ first_latest a' e' (logs record).
Proof.
  revert seen a e. induction rest as [|[b eb] rest IH]; intros seen a e Hlogs Hfl.
  - rewrite app_nil_r in Hlogs. simpl. exists a, e. by rewrite Hlogs.
  - assert (obj_get a (logs record) = Some e) as Hget.
    { apply elem_of_obj_get; [done|]. rewrite Hlogs.
      destruct Hfl as (o1 & o2 & -> & _). set_solver. }
    simpl. rewrite Action_value_truthy, Hget. simpl.
    unfold isAfter. destruct (Z.ltb_spec (timestamp e) (timestamp eb)) as [Hlt|Hge].
    + apply (IH (seen ++ [(b, eb)]) b eb); [by rewrite <-app_assoc|].
      exists seen, []. split_and!; [done| |by constructor].
      destruct Hfl as (o1 & o2 & -> & Ho1 & Ho2).
      rewrite Forall_app, Forall_cons. split_and!.
      * eapply Forall_impl; [done|]. simpl. lia.
      * simpl. lia.
      * eapply Forall_impl; [done|]. simpl. lia.
    + apply (IH (seen ++ [(b, eb)]) a e); [by rewrite <-app_assoc|].
      destruct Hfl as (o1 & o2 & -> & Ho1 & Ho2).
      exists o1, (o2 ++ [(b, eb)]). split_and!; [by rewrite <-app_assoc|done|].
      rewrite Forall_app, Forall_singleton. by split.
Qed.

(** On a mapping with an entry the [reduce] returns, and what it returns is
    the first latest entry. *)
Lemma reduce_returns_first_latest :
  logs record ≠ [] →
  ∃ a e, foldl turn (Returns None) (Object_entries (logs record)) = Returns (Some a)
         ∧ first_latest a e (logs record).
Proof.
  intros Hne.
  assert (∃ a0 e0 rest, logs record = (a0, e0) :: rest) as (a0 & e0 & rest & Hlogs).
  { clear logs_NoDup. destruct (logs record) as [|[a0 e0] rest]; [done|eauto]. }
  assert (foldl turn (Returns None) (Object_entries (logs record))
          = foldl turn (Returns (Some a0)) rest) as ->.
  { unfold Object_entries. by rewrite Hlogs. }
  apply (reduce_first_latest [(a0, e0)] rest a0 e0); [done|].
  exists [], []. by split_and!.
Qed.
End LastStep.

Lemma getLastStep_first_latest (hash : string) (st : State) (r : FileRecord) :
  reachable st → records st !! hash = Some r → logs r ≠ [] →
  ∃ a e, RecordManager.getLastStep hash st = Returns (Some a)
         ∧ first_latest a e (logs r).
Proof.
  intros Hreach Hr Hne.
  destruct (reachable_wf st Hreach hash r Hr) as (_ & Hnd & _).
  unfold RecordManager.getLastStep. rewrite Hr.
  destruct (reduce_returns_first_latest r Hnd Hne) as (a & e & Hfold & Hfl).
  exists a, e. split; [|done].
  unfold Object_entries in *. destruct (logs r); [done|]. exact Hfold.
Qed.

Lemma first_latest_bound (a : Action) (e : LogEntry)
    (o : list (Action * LogEntry)) (p : Action * LogEntry) :
  first_latest a e o → p ∈ o → (timestamp p.2 ≤ timestamp e)%Z.
Proof.
  intros (o1 & o2 & -> & Ho1 & Ho2).
  rewrite elem_of_app, elem_of_cons. intros [Hin|[->|Hin]].
  - rewrite Forall_forall in Ho1. specialize (Ho1 p Hin). simpl in Ho1. lia.
  - simpl. lia.
  - rewrite Forall_forall in Ho2. by apply Ho2.
Qed.

(** C6.  [getLastStep(id)] returns normally.  For an unknown id and for a
    job without entries it returns null.  Otherwise it returns a stage that
    has an entry, and no entry of the job has a later timestamp, timestamps
    being compared as instants. *)
Theorem getLastStep_latest (hash : string) (st : State) :
  reachable st →
  (records st !! hash = None → RecordManager.getLastStep hash st = Returns None)
  ∧ (∀ r, records st !! hash = Some r → logs r = [] →
          RecordManager.getLastStep hash st = Returns None)
  ∧ (∀ r, records st !! hash = Some r → logs r ≠ [] →
          ∃ a e, RecordManager.getLastStep hash st = Returns (Some a)
                 ∧ obj_get a (logs r) = Some e
                 ∧ ∀ b e', obj_get b (logs r) = Some e' →
                           (timestamp e' ≤ timestamp e)%Z).
Proof.
  intros Hreach. split_and!.
  - intros Hr. unfold RecordManager.getLastStep. by rewrite Hr.
  - intros r Hr Hnil. unfold RecordManager.getLastStep. by rewrite Hr, Hnil.
  - intros r Hr Hne.
    destruct (reachable_wf st Hreach hash r Hr) as (_ & Hnd & _).
    destruct (getLastStep_first_latest hash st r Hreach Hr Hne)
      as (a & e & Hret & Hfl).
    exists a, e. split_and!; [done| |].
    + apply elem_of_obj_get; [done|].
      destruct Hfl as (o1 & o2 & -> & _). set_solver.
    + intros b e' Hb.
      apply (first_latest_bound a e (logs r) (b, e') Hfl).
      by apply obj_get_elem_of.
Qed.

(** C10.  For a registered job with entries, [getLastStep(id)] returns the
    stage of the entry at some position [i] of the event mapping such that no
    entry is later than it and every entry with the same timestamp stands at
    position [i] or after it: among entries that share the latest timestamp
    the first one in insertion order wins. *)
Theorem getLastStep_first_of_ties (hash : string) (st : State) (r : FileRecord) :
  reachable st →
  records st !! hash = Some r →
  logs r ≠ [] →
  ∃ (a : Action) (e : LogEntry) (i : nat),
    RecordManager.getLastStep hash st = Returns (Some a)
    ∧ Object_entries (logs r) !! i = Some (a, e)
    ∧ (∀ (j : nat) b e', Object_entries (logs r) !! j = Some (b, e') →
                         (timestamp e' ≤ timestamp e)%Z)
    ∧ (∀ (j : nat) b e', Object_entries (logs r) !! j = Some (b, e') →
                         timestamp e' = timestamp e → (i ≤ j)%nat).
Proof.
  intros Hreach Hr Hne.
  destruct (getLastStep_first_latest hash st r Hreach Hr Hne)
    as (a & e & Hret & Hfl).
  pose proof Hfl as (o1 & o2 & Hlogs & Ho1 & Ho2).
  exists a, e, (length o1). unfold Object_entries. split_and!; [done| | |].
  - rewrite Hlogs. by rewrite lookup_app_r, Nat.sub_diag by lia.
  - intros j b e' Hj.
    apply (first_latest_bound a e (logs r) (b, e') Hfl).
    by eapply list_elem_of_lookup_2.
  - intros j b e' Hj Heq.
    destruct (decide (length o1 ≤ j)%nat) as [|Hlt]; [done|].
    rewrite Hlogs, lookup_app_l in Hj by lia.
    apply list_elem_of_lookup_2 in Hj.
    rewrite Forall_forall in Ho1. specialize (Ho1 _ Hj). simpl in Ho1. lia.
Qed.

(** ** Error queries *)

Lemma has_error_Some (log : LogEntry) :
  RecordManager.has_error log = true ↔ ∃ err, error log = Some err.
Proof.
  unfold RecordManager.has_error. destruct (error log) as [err|].
  - split; [by exists err | done].
  - split; [done | by intros [? ?]].
Qed.

Lemma some_has_error (o : list (Action * LogEntry)) :
  existsb RecordManager.has_error (Object_values o) = true
  ↔ filter (λ entry : Action * LogEntry, RecordManager.has_error entry.2 = true) o ≠ [].
Proof.
  unfold Object_values. induction o as [|[a e] o IH]; simpl; [done|].
  destruct (RecordManager.has_error e) eqn:He; simpl.
  - by rewrite filter_cons_True.
  - by rewrite filter_cons_False by (simpl; congruence).
Qed.

(** C8.  [getStepErrors(id)] is empty for an unknown id.  Otherwise its
    elements are the pairs of a stage and the error of its entry, for exactly
    the stages whose entry carries an error; each such stage occurs once and
    the stages come in the insertion order of the event mapping.
    [hasErrors(id)] is true exactly when that sequence is not empty,
    [hasErrors(id, stage)] exactly when the entry of [stage] carries an
    error, and [getLastError(id)] is the last element of the sequence, or
    null when there is none. *)
Theorem error_queries (hash : string) (st : State) :
  reachable st →
  (records st !! hash = None → RecordManager.getStepErrors hash st = [])
  ∧ (∀ s oe, (s, oe) ∈ RecordManager.getStepErrors hash st
             ↔ ∃ r e err, records st !! hash = Some r
                          ∧ obj_get s (logs r) = Some e
                          ∧ error e = Some err ∧ oe = Some err)
  ∧ (∀ r, records st !! hash = Some r →
          (RecordManager.getStepErrors hash st).*1 `sublist_of` Object_keys (logs r)
          ∧ NoDup (RecordManager.getStepErrors hash st).*1)
  ∧ (RecordManager.hasErrors hash None st = true
     ↔ RecordManager.getStepErrors hash st ≠ [])
  ∧ (∀ s, RecordManager.hasErrors hash (Some s) st = true
          ↔ ∃ r e err, records st !! hash = Some r
                       ∧ obj_get s (logs r) = Some e ∧ error e = Some err)
  ∧ RecordManager.getLastError hash st = last (RecordManager.getStepErrors hash st).
Proof.
  intros Hreach. pose proof (reachable_wf st Hreach) as Hwf.
  unfold RecordManager.getLastError, RecordManager.getStepErrors,
    RecordManager.hasErrors, Object_entries.
  destruct (records st !! hash) as [r|] eqn:Hr.
  - destruct (Hwf hash r Hr) as (_ & Hnd & _).
    assert (((λ entry : Action * LogEntry, (entry.1, error entry.2))
               <$> filter (λ entry : Action * LogEntry,
                             RecordManager.has_error entry.2 = true) (logs r)).*1
            `sublist_of` Object_keys (logs r)) as Hsub.
    { rewrite <-list_fmap_compose. unfold Object_keys.
      apply fmap_sublist, sublist_filter. }
    split_and!.
    + done.
    + intros s oe. rewrite list_elem_of_fmap. split.
      * intros ([s' e] & [= -> ->] & Hin). simpl in *.
        apply list_elem_of_filter in Hin as [Herr Hin]. simpl in Herr.
        apply has_error_Some in Herr as [err Herr].
        exists r, e, err. split_and!; [done| |done|done].
        by apply elem_of_obj_get.
      * intros (r' & e & err & [= <-] & Hget & Herr & ->).
        exists (s, e). simpl. split; [by rewrite Herr|].
        apply list_elem_of_filter. split.
        -- simpl. apply has_error_Some. by exists err.
        -- by apply obj_get_elem_of.
    + intros r' [= <-]. split; [done|]. by eapply sublist_NoDup.
    + rewrite some_has_error. split; intros Hne Hnil; apply Hne.
      * by apply fmap_nil_inv in Hnil.
      * by rewrite Hnil.
    + intros s. rewrite Action_value_truthy. split.
      * destruct (obj_get s (logs r)) as [e|] eqn:He; [|done].
        intros [err Herr]%has_error_Some. by exists r, e, err.
      * intros (r' & e & err & [= <-] & -> & Herr).
        apply has_error_Some. by exists err.
    + rewrite last_lookup.
      destruct (_ <$> filter _ _) as [|x l]; [done|].
      simpl. by rewrite Nat.sub_0_r.
  - split_and!; try done.
    + intros s oe. split; [by intros ?%elem_of_nil|].
      by intros (? & ? & ? & ? & _).
    + intros s. split; [done | by intros (? & ? & ? & ? & _)].
Qed.

(** ** Tags *)

Lemma occurrences_cons (x y : string) (a : list string) :
  occurrences x (y :: a) = (if decide (y = x) then 1 else 0) + occurrences x a.
Proof.
  unfold occurrences. case_decide.
  - by rewrite filter_cons_True.
  - by rewrite filter_cons_False.
Qed.

Lemma occurrences_absent (x : string) (a : list string) :
  x ∉ a → occurrences x a = 0.
Proof.
  induction a as [|y a IH]; [done|].
  rewrite not_elem_of_cons, occurrences_cons. intros [Hne Hnin].
  rewrite decide_False by congruence. auto.
Qed.

Lemma occurrences_NoDup (x : string) (a : list string) :
  NoDup a → x ∈ a → occurrences x a = 1.
Proof.
  induction a as [|y a IH]; [by intros _ ?%elem_of_nil|].
  rewrite NoDup_cons, elem_of_cons, occurrences_cons. intros [Hy Hnd] [->|Hin].
  - by rewrite decide_True, (occurrences_absent y a Hy).
  - rewrite decide_False; [auto|]. by intros ->.
Qed.

Lemma occurrences_push (x : string) (a : list string) :
  x ∉ a → occurrences x (Array_push x a) = 1.
Proof.
  intros Hnin. pose proof (occurrences_absent x a Hnin) as Hzero.
  unfold occurrences, Array_push in *.
  by rewrite filter_app, length_app, Hzero, filter_cons_True.
Qed.

Lemma Array_push_NoDup (x : string) (a : list string) :
  NoDup a → Array_includes x a = false → NoDup (Array_push x a).
Proof.
  unfold Array_includes, Array_push. intros Hnd Hx%bool_decide_eq_false.
  apply NoDup_app. split_and!; [done| |apply NoDup_singleton].
  intros y Hy ->%list_elem_of_singleton. done.
Qed.

Lemma update_record_tags_NoDup (hash : string) (r r' : FileRecord) (st : State) :
  tags_NoDup st → records st !! hash = Some r → tags r' = tags r →
  tags_NoDup (update_record hash r' st).
Proof.
  intros Hall Hr Htags h x. simpl. destruct (decide (hash = h)) as [->|Hne].
  - rewrite lookup_insert_eq. intros [= <-].
    unfold tags_of, deref. simpl. rewrite Htags. by apply (Hall h r).
  - rewrite lookup_insert_ne by done. apply Hall.
Qed.

(** One call keeps every tag collection free of repeats, provided that what
    it hands to [setTags] is. *)
Lemma exec_tags_NoDup (c : Call) (st : State) :
  wf st → tags_NoDup st → hands_over_NoDup st c → tags_NoDup (exec c st).
Proof.
  intros Hwf Hall Hc.
  destruct c; simpl;
    try (unfold RecordManager.setFile, RecordManager.setStatus,
           RecordManager.addAction, RecordManager.setClassification,
           RecordManager.setFormatted, RecordManager.setNewPath,
           RecordManager.setNewName, RecordManager.addError;
         destruct (records st !! hash) eqn:Hr; [|done];
         repeat case_match; by eapply update_record_tags_NoDup).
  - intros h x Hx. simpl in Hx. destruct (Hwf h x Hx) as (_ & _ & Hlt).
    unfold tags_of, deref. simpl. rewrite lookup_app_l by done. by apply (Hall h x).
  - unfold RecordManager.startTracking.
    destruct (records st !! hash) eqn:Hr; [done|]. simpl.
    intros h x. simpl. destruct (decide (hash = h)) as [->|Hne].
    + rewrite lookup_insert_eq. intros [= <-]. unfold tags_of, deref. simpl.
      rewrite lookup_app_r, Nat.sub_diag by lia. apply NoDup_nil_2.
    + rewrite lookup_insert_ne by done. intros Hx.
      destruct (Hwf h x Hx) as (_ & _ & Hlt).
      unfold tags_of, deref. simpl. rewrite lookup_app_l by done. by apply (Hall h x).
  - unfold RecordManager.addTag.
    destruct (records st !! hash) as [r|] eqn:Hr; [|done].
    destruct (Array_includes tag (tags_of st r)) eqn:Hinc; simpl; [done|].
    intros h x Hx. simpl in Hx.
    pose proof (Hall h x Hx) as Hx_nd. pose proof (Hall hash r Hr) as Hr_nd.
    unfold tags_of, deref in *. simpl. rewrite list_lookup_alter.
    case_decide as Heq; [|done]. rewrite <-Heq in *.
    destruct (arrays st !! tags r) as [a|]; simpl in *; [|done].
    by apply Array_push_NoDup.
  - unfold RecordManager.setTags.
    destruct (records st !! hash) as [r|] eqn:Hr; [|done].
    intros h x. simpl. destruct (decide (hash = h)) as [->|Hne].
    + rewrite lookup_insert_eq. intros [= <-]. exact Hc.
    + rewrite lookup_insert_ne by done. apply Hall.
Qed.

Lemma run_tags_NoDup (cs : list Call) (st st' : State) :
  wf st → tags_NoDup st → setTags_given_NoDup cs st →
  run cs st = Some st' → tags_NoDup st'.
Proof.
  revert st. induction cs as [|c cs IH]; intros st Hwf Hall Hcs; simpl.
  - by intros [= <-].
  - destruct Hcs as [Hc Hcs]. case_decide; [|done].
    apply IH; [by apply exec_wf | by apply exec_tags_NoDup | done].
Qed.

Lemma addTag_keeps_NoDup (hash tag : string) (st : State) (r2 : FileRecord) :
  NoDup (tags_of st r2) → NoDup (tags_of (RecordManager.addTag hash tag st) r2).
Proof.
  intros Hnd. unfold RecordManager.addTag.
  destruct (records st !! hash) as [r|]; [|done].
  destruct (Array_includes tag (tags_of st r)) eqn:Hinc; simpl; [done|].
  unfold tags_of, deref in *. simpl. rewrite list_lookup_alter.
  case_decide as Heq; [|done]. rewrite Heq in *.
  destruct (arrays st !! tags r2) as [a|]; simpl in *; [|done].
  by apply Array_push_NoDup.
Qed.

(** C7, amended.  In every state a client can bring the registry to:
    [addTag(id, t)] changes nothing when [t] is present; [addTag] never
    introduces a repeat (a tag collection free of repeats, of any record,
    is free of repeats afterwards, and no record changes); [setTags] stores
    the array it is given as it is and writes to no array.  Hence, if the
    calls that led to the state handed to [setTags] only arrays free of
    repeats (arrays that nothing but the registry writes to afterwards), the
    tag collection of every record is free of repeats, and after
    [addTag(id, t)] the tag [t] occurs exactly once in the collection. *)
Theorem tags_without_repeats (cs : list Call) (st : State) :
  run cs RecordManager.init = Some st →
  (∀ hash tag r, records st !! hash = Some r → tag ∈ tags_of st r →
                 RecordManager.addTag hash tag st = st)
  ∧ (∀ hash tag hash' r', records st !! hash' = Some r' →
       records (RecordManager.addTag hash tag st) !! hash' = Some r'
       ∧ (NoDup (tags_of st r') →
          NoDup (tags_of (RecordManager.addTag hash tag st) r')))
  ∧ (∀ hash r t, records st !! hash = Some r →
       arrays (RecordManager.setTags hash t st) = arrays st
       ∧ ∃ r', records (RecordManager.setTags hash t st) !! hash = Some r'
               ∧ tags_of (RecordManager.setTags hash t st) r' = deref st t)
  ∧ (setTags_given_NoDup cs RecordManager.init →
     (∀ hash r, records st !! hash = Some r → NoDup (tags_of st r))
     ∧ (∀ hash tag r, records st !! hash = Some r →
          ∃ r', records (RecordManager.addTag hash tag st) !! hash = Some r'
                ∧ occurrences tag
                    (tags_of (RecordManager.addTag hash tag st) r') = 1)).
Proof.
  intros Hrun.
  assert (wf st) as Hwf by (eapply run_wf; [apply init_wf | done]).
  split_and!.
  - intros hash tag r Hr Hin. unfold RecordManager.addTag, Array_includes.
    rewrite Hr. by rewrite bool_decide_eq_true_2.
  - intros hash tag hash' r' Hr'. split; [|apply addTag_keeps_NoDup].
    unfold RecordManager.addTag. destruct (records st !! hash); [|done].
    by case_match.
  - intros hash r t Hr. unfold RecordManager.setTags. rewrite Hr.
    split; [done|]. eexists. rewrite update_record_lookup. by split.
  - intros Hgiven.
    assert (tags_NoDup st) as Hall.
    { eapply run_tags_NoDup; [apply init_wf| |done|done].
      intros hash r. simpl. by rewrite lookup_empty. }
    split; [exact Hall|].
    intros hash tag r Hr. unfold RecordManager.addTag. rewrite Hr.
    destruct (Hwf hash r Hr) as (_ & _ & Hlt).
    unfold Array_includes. case_bool_decide as Hin; simpl.
    + exists r. split; [done|].
      apply occurrences_NoDup; [by apply (Hall hash r) | done].
    + exists r. split; [done|].
      unfold tags_of, deref in *. simpl.
      apply lookup_lt_is_Some in Hlt as [a Ha]. rewrite Ha in Hin. simpl in Hin.
      rewrite list_lookup_alter, Ha, decide_True by done. simpl.
      by apply occurrences_push.
Qed.

(** * Sample runs, evaluated *)

Example scenario_runs : run scenario RecordManager.init = Some (after scenario).
Proof. reflexivity. Qed.

Example scenario_lookup : records (after scenario) !! "h1" = Some scenario_record.
Proof. reflexivity. Qed.

Example scenario_no_done_key :
  RecordManager.getStepLogs "h1" CLASSIFY_DONE (after scenario) = None.
Proof. reflexivity. Qed.

Example scenario_hasErrors : RecordManager.hasErrors "h1" None (after scenario) = true.
Proof. reflexivity. Qed.

Example scenario_getLastError :
  RecordManager.getLastError "h1" (after scenario) = Some (TAGGING, Some timeout_error).
Proof. reflexivity. Qed.

Example scenario_getLastStep :
  RecordManager.getLastStep "h1" (after scenario) = Returns (Some TAGGING).
Proof. reflexivity. Qed.

Example fallback_first_lookup :
  records (after fallback_first) !! "h1" = Some fallback_first_record.
Proof. reflexivity. Qed.

Example same_second_lookup :
  records (after same_second) !! "h1" = Some same_second_record.
Proof. reflexivity. Qed.

Example same_second_getLastStep :
  RecordManager.getLastStep "h1" (after same_second) = Returns (Some EXTRACT).
Proof. reflexivity. Qed.

Example shared_tags_lookup :
  records (after shared_tags) !! "h2" = Some shared_tags_record.
Proof. reflexivity. Qed.

Example shared_tags_seen_by_both :
  tags_of (after shared_tags) shared_tags_record = ["a"; "b"; "c"].
Proof. reflexivity. Qed.

Example unpaired_done_stage : RecordManager.getBaseAction APPEND_DONE = None.
Proof. reflexivity. Qed.

Lemma after_reachable (cs : list Call) :
  run cs RecordManager.init = Some (after cs) → reachable (after cs).
Proof. intros Hrun. by exists cs. Qed.

(** * The properties at sample runs *)

Lemma unknown_id_is_inert_witness :
  records (after scenario) !! "h2" = None
  ∧ (∀ file, RecordManager.setFile "h2" file (after scenario) = after scenario)
  ∧ (∀ status, RecordManager.setStatus "h2" status (after scenario) = after scenario)
  ∧ (∀ tag, RecordManager.addTag "h2" tag (after scenario) = after scenario)
  ∧ (∀ tags, RecordManager.setTags "h2" tags (after scenario) = after scenario)
  ∧ (∀ c, RecordManager.setClassification "h2" c (after scenario) = after scenario)
  ∧ (∀ b, RecordManager.setFormatted "h2" b (after scenario) = after scenario)
  ∧ (∀ p, RecordManager.setNewPath "h2" p (after scenario) = after scenario)
  ∧ (∀ n, RecordManager.setNewName "h2" n (after scenario) = after scenario)
  ∧ (∀ step completed now,
       RecordManager.addAction "h2" step completed now (after scenario)
       = after scenario)
  ∧ (∀ error now, RecordManager.addError "h2" error now (after scenario)
                  = after scenario).
Proof.
  split; [reflexivity|].
  apply (unknown_id_is_inert "h2" (after scenario)). reflexivity.
Defined.

Lemma addError_overwrites_witness :
  reachable (after scenario)
  ∧ records (after scenario) !! "h1" = Some scenario_record
  ∧ ∃ r, records (RecordManager.addError "h1"
                    {| message := "disk full"; stack := Some "at classify";
                       action := CLASSIFY |} 120%Z (after scenario)) !! "h1"
         = Some r
         ∧ obj_get CLASSIFY (logs r)
           = Some {| timestamp := 120%Z; completed := Some false;
                     error := Some {| message := "disk full";
                                      stack := Some "at classify";
                                      action := CLASSIFY |} |}
         ∧ obj_count CLASSIFY (logs r) = 1
         ∧ (∀ k, k ≠ CLASSIFY →
                 obj_get k (logs r) = obj_get k (logs scenario_record)
                 ∧ obj_count k (logs r) = obj_count k (logs scenario_record)).
Proof.
  split; [apply after_reachable; reflexivity|]. split; [reflexivity|].
  apply (addError_overwrites "h1"
           {| message := "disk full"; stack := Some "at classify"; action := CLASSIFY |}
           120%Z (after scenario) scenario_record).
  - apply after_reachable; reflexivity.
  - reflexivity.
Defined.

Lemma addAction_pairing_miss_witness :
  reachable (after scenario)
  ∧ records (after scenario) !! "h1" = Some scenario_record
  ∧ (∀ S, RecordManager.getBaseAction RENAME_DONE = Some S →
          obj_get S (logs scenario_record) = None)
  ∧ ∃ r, records (RecordManager.addAction "h1" RENAME_DONE true 120%Z
                    (after scenario)) !! "h1" = Some r
         ∧ obj_get RENAME_DONE (logs r)
           = Some {| timestamp := 120%Z; completed := Some true; error := None |}
         ∧ obj_count RENAME_DONE (logs r) = 1
         ∧ (∀ k, k ≠ RENAME_DONE →
                 obj_get k (logs r) = obj_get k (logs scenario_record)
                 ∧ obj_count k (logs r) = obj_count k (logs scenario_record)).
Proof.
  assert (∀ S, RecordManager.getBaseAction RENAME_DONE = Some S →
               obj_get S (logs scenario_record) = None) as Hmiss.
  { intros S [= <-]. reflexivity. }
  split; [apply after_reachable; reflexivity|]. split; [reflexivity|].
  split; [exact Hmiss|].
  apply (addAction_pairing_miss "h1" RENAME_DONE 120%Z (after scenario)
           scenario_record).
  - apply after_reachable; reflexivity.
  - reflexivity.
  - exact Hmiss.
Defined.

Lemma addAction_pairing_witness :
  reachable (after scenario)
  ∧ records (after scenario) !! "h1" = Some scenario_record
  ∧ RecordManager.getBaseAction RENAME_DONE = Some RENAME
  ∧ ∃ r, records (RecordManager.addAction "h1" RENAME_DONE true 125%Z
                    (RecordManager.addAction "h1" RENAME false 120%Z
                       (after scenario))) !! "h1" = Some r
         ∧ obj_get RENAME (logs r)
           = Some {| timestamp := 120%Z; completed := Some true; error := None |}
         ∧ obj_count RENAME (logs r) = 1
         ∧ obj_get RENAME_DONE (logs r) = obj_get RENAME_DONE (logs scenario_record)
         ∧ obj_count RENAME_DONE (logs r) = obj_count RENAME_DONE (logs scenario_record)
         ∧ (∀ k, k ≠ RENAME →
                 obj_get k (logs r) = obj_get k (logs scenario_record)
                 ∧ obj_count k (logs r) = obj_count k (logs scenario_record)).
Proof.
  split; [apply after_reachable; reflexivity|]. split; [reflexivity|].
  split; [reflexivity|].
  apply (addAction_pairing "h1" RENAME RENAME_DONE 120%Z 125%Z (after scenario)
           scenario_record).
  - apply after_reachable; reflexivity.
  - reflexivity.
  - reflexivity.
Defined.

(** C1 as stated fails where a completion was logged before its start
    stage: the entry written then under [CLASSIFY_DONE] stays, and after the
    two calls the pair has two entries. *)
Lemma pairing_after_fallback_has_two_entries :
  reachable (after fallback_first)
  ∧ records (after fallback_first) !! "h1" = Some fallback_first_record
  ∧ RecordManager.getBaseAction CLASSIFY_DONE = Some CLASSIFY
  ∧ (∃ r, records (RecordManager.addAction "h1" CLASSIFY_DONE true 30%Z
                     (RecordManager.addAction "h1" CLASSIFY false 20%Z
                        (after fallback_first))) !! "h1" = Some r
          ∧ logs r
            = [ (CLASSIFY_DONE,
                 {| timestamp := 10%Z; completed := Some true; error := None |});
                (CLASSIFY,
                 {| timestamp := 20%Z; completed := Some true; error := None |}) ])
  ∧ ¬ pairing_as_stated (after fallback_first) "h1" CLASSIFY CLASSIFY_DONE 20%Z 30%Z.
Proof.
  split; [apply after_reachable; reflexivity|]. split; [reflexivity|].
  split; [reflexivity|]. split; [eexists; split; reflexivity|].
  intros (r & e & Hr & Hcount & _).
  vm_compute in Hr. injection Hr as <-.
  vm_compute in Hcount. discriminate Hcount.
Qed.

Lemma completion_keeps_error_witness :
  records (after scenario) !! "h1" = Some scenario_record
  ∧ RecordManager.getBaseAction TAGGING_DONE = Some TAGGING
  ∧ obj_get TAGGING (logs scenario_record)
    = Some {| timestamp := 110%Z; completed := Some false;
              error := Some timeout_error |}
  ∧ ∃ r, records (RecordManager.addAction "h1" TAGGING_DONE true 130%Z
                    (after scenario)) !! "h1" = Some r
         ∧ obj_get TAGGING (logs r)
           = Some {| timestamp := 110%Z; completed := Some true;
                     error := Some timeout_error |}
         ∧ RecordManager.hasErrors "h1" (Some TAGGING)
             (RecordManager.addAction "h1" TAGGING_DONE true 130%Z (after scenario))
           = true
         ∧ (∀ k, k ≠ TAGGING →
                 obj_get k (logs r) = obj_get k (logs scenario_record)).
Proof.
  split; [reflexivity|]. split; [reflexivity|]. split; [reflexivity|].
  apply (completion_keeps_error "h1" TAGGING TAGGING_DONE 130%Z (after scenario)
           scenario_record
           {| timestamp := 110%Z; completed := Some false; error := Some timeout_error |}
           timeout_error); reflexivity.
Defined.

Lemma getLastStep_latest_witness :
  reachable (after scenario)
  ∧ (records (after scenario) !! "h1" = None →
     RecordManager.getLastStep "h1" (after scenario) = Returns None)
  ∧ (∀ r, records (after scenario) !! "h1" = Some r → logs r = [] →
          RecordManager.getLastStep "h1" (after scenario) = Returns None)
  ∧ (∀ r, records (after scenario) !! "h1" = Some r → logs r ≠ [] →
          ∃ a e, RecordManager.getLastStep "h1" (after scenario) = Returns (Some a)
                 ∧ obj_get a (logs r) = Some e
                 ∧ ∀ b e', obj_get b (logs r) = Some e' →
                           (timestamp e' ≤ timestamp e)%Z).
Proof.
  split; [apply after_reachable; reflexivity|].
  apply (getLastStep_latest "h1" (after scenario)).
  apply after_reachable; reflexivity.
Defined.

Lemma getLastStep_first_of_ties_witness :
  reachable (after same_second)
  ∧ records (after same_second) !! "h1" = Some same_second_record
  ∧ logs same_second_record ≠ []
  ∧ ∃ (a : Action) (e : LogEntry) (i : nat),
      RecordManager.getLastStep "h1" (after same_second) = Returns (Some a)
      ∧ Object_entries (logs same_second_record) !! i = Some (a, e)
      ∧ (∀ (j : nat) b e',
           Object_entries (logs same_second_record) !! j = Some (b, e') →
           (timestamp e' ≤ timestamp e)%Z)
      ∧ (∀ (j : nat) b e',
           Object_entries (logs same_second_record) !! j = Some (b, e') →
           timestamp e' = timestamp e → (i ≤ j)%nat).
Proof.
  split; [apply after_reachable; reflexivity|]. split; [reflexivity|].
  split; [discriminate|].
  apply (getLastStep_first_of_ties "h1" (after same_second) same_second_record).
  - apply after_reachable; reflexivity.
  - reflexivity.
  - discriminate.
Defined.

Lemma error_queries_witness :
  reachable (after scenario)
  ∧ (records (after scenario) !! "h1" = None →
     RecordManager.getStepErrors "h1" (after scenario) = [])
  ∧ (∀ s oe, (s, oe) ∈ RecordManager.getStepErrors "h1" (after scenario)
             ↔ ∃ r e err, records (after scenario) !! "h1" = Some r
                          ∧ obj_get s (logs r) = Some e
                          ∧ error e = Some err ∧ oe = Some err)
  ∧ (∀ r, records (after scenario) !! "h1" = Some r →
          (RecordManager.getStepErrors "h1" (after scenario)).*1
            `sublist_of` Object_keys (logs r)
          ∧ NoDup (RecordManager.getStepErrors "h1" (after scenario)).*1)
  ∧ (RecordManager.hasErrors "h1" None (after scenario) = true
     ↔ RecordManager.getStepErrors "h1" (after scenario) ≠ [])
  ∧ (∀ s, RecordManager.hasErrors "h1" (Some s) (after scenario) = true
          ↔ ∃ r e err, records (after scenario) !! "h1" = Some r
                       ∧ obj_get s (logs r) = Some e ∧ error e = Some err)
  ∧ RecordManager.getLastError "h1" (after scenario)
    = last (RecordManager.getStepErrors "h1" (after scenario)).
Proof.
  split; [apply after_reachable; reflexivity|].
  apply (error_queries "h1" (after scenario)).
  apply after_reachable; reflexivity.
Defined.

Lemma tags_without_repeats_witness :
  run shared_tags RecordManager.init = Some (after shared_tags)
  ∧ setTags_given_NoDup shared_tags RecordManager.init
  ∧ ((∀ hash r, records (after shared_tags) !! hash = Some r →
                NoDup (tags_of (after shared_tags) r))
     ∧ (∀ hash tag r, records (after shared_tags) !! hash = Some r →
          ∃ r', records (RecordManager.addTag hash tag (after shared_tags)) !! hash
                = Some r'
                ∧ occurrences tag
                    (tags_of (RecordManager.addTag hash tag (after shared_tags)) r')
                  = 1))
  ∧ run repeated_tags RecordManager.init = Some (after repeated_tags)
  ∧ (∀ hash tag r, records (after repeated_tags) !! hash = Some r →
                   tag ∈ tags_of (after repeated_tags) r →
                   RecordManager.addTag hash tag (after repeated_tags)
                   = after repeated_tags)
  ∧ (∀ hash tag hash' r', records (after repeated_tags) !! hash' = Some r' →
       records (RecordManager.addTag hash tag (after repeated_tags)) !! hash'
       = Some r'
       ∧ (NoDup (tags_of (after repeated_tags) r') →
          NoDup (tags_of (RecordManager.addTag hash tag (after repeated_tags)) r')))
  ∧ (∀ hash r t, records (after repeated_tags) !! hash = Some r →
       arrays (RecordManager.setTags hash t (after repeated_tags))
       = arrays (after repeated_tags)
       ∧ ∃ r', records (RecordManager.setTags hash t (after repeated_tags)) !! hash
               = Some r'
               ∧ tags_of (RecordManager.setTags hash t (after repeated_tags)) r'
                 = deref (after repeated_tags) t).
Proof.
  assert (setTags_given_NoDup shared_tags RecordManager.init) as Hgiven.
  { apply (bool_decide_unpack _). vm_compute. reflexivity. }
  split; [reflexivity|]. split; [exact Hgiven|]. split.
  - apply (tags_without_repeats shared_tags (after shared_tags)); [reflexivity|].
    exact Hgiven.
  - split; [reflexivity|].
    pose proof (tags_without_repeats repeated_tags (after repeated_tags) eq_refl)
      as (Hpresent & Hkeeps & Hstores & _).
    split; [exact Hpresent|]. split; [exact Hkeeps | exact Hstores].
Defined.

(** C7 as stated fails: [setTags] keeps the array it is given, repeats
    included. *)
Lemma setTags_keeps_repeats :
  reachable (after repeated_tags)
  ∧ (∃ r, records (after repeated_tags) !! "h1" = Some r
          ∧ tags_of (after repeated_tags) r = ["x"; "x"])
  ∧ ¬ tags_never_repeat_as_stated.
Proof.
  assert (reachable (after repeated_tags)) as Hreach.
  { apply after_reachable. reflexivity. }
  split; [exact Hreach|]. split.
  - eexists. split; reflexivity.
  - intros Hclaim. specialize (Hclaim (after repeated_tags) Hreach "h1" _ eq_refl).
    vm_compute in Hclaim. apply NoDup_cons in Hclaim as [Hnin _].
    apply Hnin. left.
Qed.

(** * The rest of the class *)

(** ** What a call keeps *)

Lemma Object_keys_set_prefix {V : Type} (k : Action) (v : V)
    (o : list (Action * V)) :
  Object_keys o `prefix_of` Object_keys (obj_set k v o).
Proof.
  rewrite Object_keys_set. case_decide; [done|]. by apply prefix_app_r.
Qed.

(** A call keeps every record there is, with its [id] and [originalName];
    the keys of its event mapping stay in place, new ones come after them;
    and only [addAction] and [addError] write to the mapping at all. *)
Lemma exec_keeps_record (c : Call) (st : State) (hash : string) (r : FileRecord) :
  records st !! hash = Some r →
  ∃ r', records (exec c st) !! hash = Some r'
        ∧ id r' = id r ∧ originalName r' = originalName r
        ∧ Object_keys (logs r) `prefix_of` Object_keys (logs r')
        ∧ (writes_events c = false → logs r' = logs r).
Proof.
  intros Hr.
  destruct c as [a|h n|h f|h s|h step b now|h t|h t|h x|h b|h p|h n|h e now];
    simpl;
    unfold RecordManager.startTracking, RecordManager.setFile,
      RecordManager.setStatus, RecordManager.addAction, RecordManager.addTag,
      RecordManager.setTags, RecordManager.setClassification,
      RecordManager.setFormatted, RecordManager.setNewPath,
      RecordManager.setNewName, RecordManager.addError, new_array;
    try (destruct (decide (h = hash)) as [->|Hne];
         [rewrite ?Hr | destruct (records st !! h) eqn:Hh]);
    repeat case_match; simplify_eq; simpl;
    rewrite ?lookup_insert_eq, ?lookup_insert_ne by done;
    try (eexists; split; [done|]; simpl; split_and!;
         first [done | apply Object_keys_set_prefix]).
Qed.

Lemma run_keeps_record (cs : list Call) (st st' : State) (hash : string)
    (r : FileRecord) :
  run cs st = Some st' → records st !! hash = Some r →
  ∃ r', records st' !! hash = Some r'
        ∧ id r' = id r ∧ originalName r' = originalName r
        ∧ Object_keys (logs r) `prefix_of` Object_keys (logs r').
Proof.
  revert st r. induction cs as [|c cs IH]; intros st r; simpl.
  - intros [= <-] Hr. by exists r.
  - case_decide; [|done]. intros Hrun Hr.
    destruct (exec_keeps_record c st hash r Hr) as (r1 & Hr1 & Hid & Hname & Hpre & _).
    destruct (IH _ _ Hrun Hr1) as (r' & Hr' & Hid' & Hname' & Hpre').
    exists r'. split_and!; [done|congruence|congruence|by etrans].
Qed.

(** X1.  Whatever calls follow, a record that is there stays there, with the
    [id] and the [originalName] it has; the stages logged for it stay logged,
    in the same order, and stages logged later come after them. *)
Theorem nothing_is_removed (cs : list Call) (st st' : State) (hash : string)
    (r : FileRecord) :
  run cs st = Some st' →
  RecordManager.getRecord hash st = Some r →
  ∃ r', RecordManager.getRecord hash st' = Some r'
        ∧ id r' = id r ∧ originalName r' = originalName r
        ∧ Object_keys (logs r) `prefix_of` Object_keys (logs r')
        ∧ (∀ step, is_Some (RecordManager.getStepLogs hash step st) →
                   is_Some (RecordManager.getStepLogs hash step st')).
Proof.
  unfold RecordManager.getRecord, RecordManager.getStepLogs. intros Hrun Hr.
  destruct (run_keeps_record cs st st' hash r Hrun Hr)
    as (r' & Hr' & Hid & Hname & Hpre).
  exists r'. rewrite Hr, Hr'. split_and!; [done..|].
  intros step. rewrite !obj_get_Some. intros Hin.
  destruct Hpre as [k ->]. apply elem_of_app. by left.
Qed.

(** A call creates no record, unless it is [startTracking] for a new id. *)
Lemma exec_unregistered (c : Call) (st : State) (hash : string) :
  records st !! hash = None →
  (records (exec c st) !! hash = None
   ∧ first_registration hash [c] = None)
  ∨ (∃ r', records (exec c st) !! hash = Some r'
           ∧ first_registration hash [c] = Some (originalName r')
           ∧ logs r' = []).
Proof.
  intros Hr. unfold first_registration.
  destruct c as [a|h n|h f|h s|h step b now|h t|h t|h x|h b|h p|h n|h e now];
    simpl;
    unfold RecordManager.startTracking, RecordManager.setFile,
      RecordManager.setStatus, RecordManager.addAction, RecordManager.addTag,
      RecordManager.setTags, RecordManager.setClassification,
      RecordManager.setFormatted, RecordManager.setNewPath,
      RecordManager.setNewName, RecordManager.addError, new_array;
    try (destruct (decide (h = hash)) as [->|Hne];
         [rewrite ?Hr | destruct (records st !! h) eqn:Hh]);
    repeat case_match; simplify_eq; simpl;
    rewrite ?lookup_insert_eq, ?lookup_insert_ne by done;
    first [by left | right; by eexists].
Qed.

Lemma first_registration_cons (hash : string) (c : Call) (cs : list Call) :
  first_registration hash (c :: cs)
  = match first_registration hash [c] with
    | Some name => Some name
    | None => first_registration hash cs
    end.
Proof.
  unfold first_registration. simpl.
  destruct c; simpl; try done. by case_decide.
Qed.

Lemma run_registration (cs : list Call) (st st' : State) (hash : string) :
  run cs st = Some st' →
  originalName <$> records st' !! hash
  = match originalName <$> records st !! hash with
    | Some name => Some name
    | None => first_registration hash cs
    end.
Proof.
  revert st. induction cs as [|c cs IH]; intros st; simpl.
  - intros [= <-]. by destruct (records st !! hash).
  - case_decide; [|done]. intros Hrun. rewrite (IH _ Hrun), first_registration_cons.
    destruct (records st !! hash) as [r|] eqn:Hr; simpl.
    + destruct (exec_keeps_record c st hash r Hr) as (r1 & -> & _ & Hname & _).
      simpl. by rewrite Hname.
    + destruct (exec_unregistered c st hash Hr) as [[-> ->]|(r1 & -> & -> & _)]; done.
Qed.

(** X2.  After the calls [cs] on a new registry there is a record for [hash]
    exactly when [cs] holds a [startTracking] for [hash]; that record has
    [hash] as its [id] and, as its [originalName], the name given by the
    first such call: later calls of [startTracking] do not rename it. *)
Theorem registered_by_first_startTracking (cs : list Call) (st : State)
    (hash : string) :
  run cs RecordManager.init = Some st →
  originalName <$> RecordManager.getRecord hash st = first_registration hash cs
  ∧ id <$> RecordManager.getRecord hash st
    = (λ _, hash) <$> first_registration hash cs.
Proof.
  intros Hrun. unfold RecordManager.getRecord.
  pose proof (run_registration cs _ st hash Hrun) as Hname.
  simpl in Hname. rewrite lookup_empty in Hname. simpl in Hname.
  split; [done|]. rewrite <-Hname.
  destruct (records st !! hash) as [r|] eqn:Hr; [|done]. simpl.
  assert (reachable st) as Hreach by by exists cs.
  by destruct (reachable_wf st Hreach hash r Hr) as (-> & _).
Qed.

(** ** The event queries read the event mapping only *)

Lemma later_step_logs (r r' : FileRecord) (latest : option Action)
    (entry : Action * LogEntry) :
  logs r = logs r' →
  RecordManager.later_step r latest entry = RecordManager.later_step r' latest entry.
Proof. intros Heq. unfold RecordManager.later_step. by rewrite Heq. Qed.

Lemma foldl_later_step_logs (r r' : FileRecord) (acc : Outcome (option Action))
    (o : list (Action * LogEntry)) :
  logs r = logs r' →
  foldl (λ acc entry, Outcome_bind acc (λ latest, RecordManager.later_step r latest entry))
        acc o
  = foldl (λ acc entry, Outcome_bind acc (λ latest, RecordManager.later_step r' latest entry))
          acc o.
Proof.
  intros Heq. revert acc. induction o as [|entry o IH]; intros acc; simpl; [done|].
  rewrite IH. f_equal. destruct acc; simpl; [|done]. by apply later_step_logs.
Qed.

Lemma event_queries_same_log (hash : string) (st st' : State) :
  event_log hash st = event_log hash st' →
  RecordManager.getStepErrors hash st = RecordManager.getStepErrors hash st'
  ∧ (∀ step, RecordManager.hasErrors hash step st
             = RecordManager.hasErrors hash step st')
  ∧ (∀ step, RecordManager.getStepLogs hash step st
             = RecordManager.getStepLogs hash step st')
  ∧ RecordManager.getLastStep hash st = RecordManager.getLastStep hash st'
  ∧ RecordManager.getLastError hash st = RecordManager.getLastError hash st'.
Proof.
  unfold event_log. intros Hlog.
  assert (RecordManager.getStepErrors hash st
          = RecordManager.getStepErrors hash st') as Herrors.
  { unfold RecordManager.getStepErrors, Object_entries.
    destruct (records st !! hash) as [r|], (records st' !! hash) as [r'|];
      [by rewrite Hlog | by rewrite Hlog | by rewrite <-Hlog | done]. }
  split_and!.
  - done.
  - intros step. unfold RecordManager.hasErrors.
    destruct (records st !! hash) as [r|], (records st' !! hash) as [r'|];
      [by rewrite Hlog | rewrite Hlog | rewrite <-Hlog | done];
      by destruct step; repeat case_match.
  - intros step. unfold RecordManager.getStepLogs.
    destruct (records st !! hash) as [r|], (records st' !! hash) as [r'|];
      [by rewrite Hlog | by rewrite Hlog | by rewrite <-Hlog | done].
  - unfold RecordManager.getLastStep, Object_entries.
    destruct (records st !! hash) as [r|], (records st' !! hash) as [r'|];
      [|by rewrite Hlog | by rewrite <-Hlog | done].
    rewrite Hlog. case_match; [done|]. by apply foldl_later_step_logs.
  - unfold RecordManager.getLastError. by rewrite Herrors.
Qed.

Lemma exec_event_log (c : Call) (st : State) (hash : string) :
  writes_events c = false → event_log hash (exec c st) = event_log hash st.
Proof.
  intros Hc. unfold event_log.
  destruct (records st !! hash) as [r|] eqn:Hr.
  - destruct (exec_keeps_record c st hash r Hr) as (r' & -> & _ & _ & _ & Hlogs).
    by apply Hlogs.
  - by destruct (exec_unregistered c st hash Hr) as [[-> _]|(r' & -> & _ & ->)].
Qed.

(** X3.  Only [addAction] and [addError] change what the event queries
    answer: after any other call ([startTracking], a setter of a member,
    [addTag], [setTags]) the answers of [getStepErrors], [hasErrors],
    [getStepLogs], [getLastStep] and [getLastError] are, for every job, what
    they were before.  In particular registering a job yields the answers of
    a job that is not registered. *)
Theorem events_change_by_addAction_and_addError_only (c : Call) (st : State)
    (hash : string) :
  writes_events c = false →
  RecordManager.getStepErrors hash (exec c st) = RecordManager.getStepErrors hash st
  ∧ (∀ step, RecordManager.hasErrors hash step (exec c st)
             = RecordManager.hasErrors hash step st)
  ∧ (∀ step, RecordManager.getStepLogs hash step (exec c st)
             = RecordManager.getStepLogs hash step st)
  ∧ RecordManager.getLastStep hash (exec c st) = RecordManager.getLastStep hash st
  ∧ RecordManager.getLastError hash (exec c st) = RecordManager.getLastError hash st.
Proof.
  intros Hc. apply event_queries_same_log. by apply exec_event_log.
Qed.

(** ** Members and their setters *)

Lemma last_given_cons {A : Type} (pick : Call → option A) (c : Call)
    (cs : list Call) :
  last_given pick (c :: cs)
  = match last_given pick cs with
    | Some x => Some x
    | None => pick c
    end.
Proof.
  unfold last_given. csimpl. destruct (pick c) as [x|]; simpl.
  - by rewrite last_cons.
  - by destruct (last (omap pick cs)).
Qed.

(** What one call does to the members of a record that is there: a setter
    for this job writes its member, and nothing else writes it. *)
Lemma exec_members (c : Call) (st : State) (hash : string) (r : FileRecord) :
  records st !! hash = Some r →
  ∃ r', records (exec c st) !! hash = Some r'
        ∧ file r' = from_option Some (file r) (gives_file hash c)
        ∧ status r' = default (status r) (gives_status hash c)
        ∧ classification r'
          = from_option Some (classification r) (gives_classification hash c)
        ∧ formatted r' = default (formatted r) (gives_formatted hash c)
        ∧ newPath r' = from_option Some (newPath r) (gives_newPath hash c)
        ∧ newName r' = from_option Some (newName r) (gives_newName hash c)
        ∧ tags r' = default (tags r) (gives_tags hash c).
Proof.
  intros Hr.
  destruct c as [a|h n|h f|h s|h step b now|h t|h t|h x|h b|h p|h n|h e now];
    simpl;
    unfold RecordManager.startTracking, RecordManager.setFile,
      RecordManager.setStatus, RecordManager.addAction, RecordManager.addTag,
      RecordManager.setTags, RecordManager.setClassification,
      RecordManager.setFormatted, RecordManager.setNewPath,
      RecordManager.setNewName, RecordManager.addError, new_array;
    try (destruct (decide (h = hash)) as [->|Hne];
         [rewrite ?Hr | destruct (records st !! h) eqn:Hh]);
    repeat case_match; simplify_eq; simpl;
    rewrite ?lookup_insert_eq, ?lookup_insert_ne by done;
    by eexists.
Qed.

(** X4.  After any calls, each of the members [file], [status],
    [classification], [formatted], [newPath], [newName] and [tags] (the
    array the record holds) of a job that was registered before them holds
    what the last call of its setter for that job gave, or what it held
    before if there was no such call: a setter overwrites, and no other
    method and no call for another job writes the member. *)
Theorem members_hold_the_last_write (cs : list Call) (st st' : State)
    (hash : string) (r : FileRecord) :
  run cs st = Some st' →
  RecordManager.getRecord hash st = Some r →
  ∃ r', RecordManager.getRecord hash st' = Some r'
        ∧ file r' = from_option Some (file r) (last_given (gives_file hash) cs)
        ∧ status r' = default (status r) (last_given (gives_status hash) cs)
        ∧ classification r'
          = from_option Some (classification r)
              (last_given (gives_classification hash) cs)
        ∧ formatted r' = default (formatted r) (last_given (gives_formatted hash) cs)
        ∧ newPath r'
          = from_option Some (newPath r) (last_given (gives_newPath hash) cs)
        ∧ newName r'
          = from_option Some (newName r) (last_given (gives_newName hash) cs)
        ∧ tags r' = default (tags r) (last_given (gives_tags hash) cs).
Proof.
  unfold RecordManager.getRecord.
  revert st r. induction cs as [|c cs IH]; intros st r; simpl.
  - intros [= <-] Hr. exists r. by split_and!.
  - case_decide; [|done]. intros Hrun Hr.
    destruct (exec_members c st hash r Hr)
      as (r1 & Hr1 & Hf1 & Hs1 & Hc1 & Hb1 & Hp1 & Hn1 & Ht1).
    destruct (IH _ _ Hrun Hr1) as (r' & Hr' & Hf & Hs & Hc & Hb & Hp & Hn & Ht).
    exists r'. rewrite !last_given_cons. split; [done|].
    rewrite Hf, Hs, Hc, Hb, Hp, Hn, Ht, Hf1, Hs1, Hc1, Hb1, Hp1, Hn1, Ht1.
    split_and!; by repeat case_match.
Qed.

(** ** Calls for other jobs *)






(** ** The pairing table *)

(** X6.  The table of [getBaseAction] pairs stages one to one: the start
    stage of a stage is another stage, it has no start stage of its own, and
    no two stages have the same start stage.  So [addAction(id, d, true)]
    completes the entry of at most one stage, and no other stage completes
    that entry. *)
Theorem getBaseAction_pairs_one_to_one (d d' s : Action) :
  RecordManager.getBaseAction d = Some s →
  s ≠ d
  ∧ RecordManager.getBaseAction s = None
  ∧ (RecordManager.getBaseAction d' = Some s → d' = d).
Proof.
  intros Hd. split_and!.
  - by apply getBaseAction_ne.
  - destruct d; simpl in Hd; by simplify_eq.
  - destruct d; simpl in Hd; simplify_eq; destruct d'; simpl; by intros [=].
Qed.

(** ** Logging a stage anew *)

Lemma run_snoc (cs : list Call) (c : Call) (st st' : State) :
  run cs st = Some st' → admissible st' c → run (cs ++ [c]) st = Some (exec c st').
Proof.
  revert st. induction cs as [|c0 cs IH]; intros st; simpl.
  - intros [= <-] Hadm. by rewrite decide_True.
  - case_decide; [|done]. apply IH.
Qed.

Lemma reachable_exec (c : Call) (st : State) :
  reachable st → admissible st c → reachable (exec c st).
Proof. intros [cs Hcs] Hadm. exists (cs ++ [c]). by apply run_snoc. Qed.

(** X7.  For a registered job, [addAction(id, stage)] (not completing)
    replaces whatever was logged under [stage]: the entry read back by
    [getStepLogs] has the clock reading of the call, is not completed and
    carries no error.  An error recorded for the stage before is thereby
    dropped: [hasErrors(id, stage)] is false and the stage is absent from
    [getStepErrors(id)]. *)
Theorem addAction_start_drops_error (hash : string) (step : Action)
    (now : Timestamp) (st : State) (r : FileRecord) :
  reachable st →
  RecordManager.getRecord hash st = Some r →
  RecordManager.getStepLogs hash step (RecordManager.addAction hash step false now st)
  = Some {| timestamp := now; completed := Some false; error := None |}
  ∧ RecordManager.hasErrors hash (Some step)
      (RecordManager.addAction hash step false now st) = false
  ∧ (∀ oe, (step, oe) ∉ RecordManager.getStepErrors hash
                          (RecordManager.addAction hash step false now st)).
Proof.
  unfold RecordManager.getRecord. intros Hreach Hr.
  destruct (reachable_wf st Hreach hash r Hr) as (_ & Hnd & _).
  rewrite (addAction_writes hash step false now st r Hr) by done.
  unfold RecordManager.getStepLogs, RecordManager.hasErrors,
    RecordManager.getStepErrors, Object_entries.
  rewrite update_record_lookup. simpl.
  rewrite Action_value_truthy, obj_get_set_eq. split_and!; [done|done|].
  intros oe ([s e] & [= -> ->] & Hin)%list_elem_of_fmap. simpl in *.
  apply list_elem_of_filter in Hin as [Herr Hin]. simpl in Herr.
  apply elem_of_obj_get in Hin; [|by apply obj_set_NoDup].
  rewrite obj_get_set_eq in Hin. by simplify_eq.
Qed.

(** X8.  For a registered job: when the timestamp a call stores (what
    [moment()] reads, written as local time and cut to whole seconds) is
    strictly later than the timestamp stored in every entry of the job, then
    after [addError(id, error)] [getLastStep(id)] returns the stage of the
    error and after [addAction(id, stage)] it returns [stage].  A call whose
    stored timestamp only equals the latest one (a call within the same
    second) is not covered. *)
Theorem latest_write_is_the_last_step (hash : string) (now : Timestamp)
    (st : State) (r : FileRecord) :
  reachable st →
  RecordManager.getRecord hash st = Some r →
  (∀ k e, obj_get k (logs r) = Some e → (timestamp e < now)%Z) →
  (∀ err, RecordManager.getLastStep hash (RecordManager.addError hash err now st)
          = Returns (Some (action err)))
  ∧ (∀ step, RecordManager.getLastStep hash
               (RecordManager.addAction hash step false now st)
             = Returns (Some step)).
Proof.
  unfold RecordManager.getRecord. intros Hreach Hr Hold.
  assert (∀ (k : Action) (new : LogEntry) (st' : State),
            reachable st' →
            records st' !! hash = Some (set_logs (obj_set k new (logs r)) r) →
            timestamp new = now →
            RecordManager.getLastStep hash st' = Returns (Some k)) as Hlast.
  { intros k new st' Hreach' Hr' Hnow.
    destruct (reachable_wf st' Hreach' hash _ Hr') as (_ & Hnd' & _).
    destruct (getLastStep_first_latest hash st' _ Hreach' Hr') as (a & e & -> & Hfl).
    { simpl. intros Hnil. pose proof (obj_get_set_eq k new (logs r)) as Hget.
      by rewrite Hnil in Hget. }
    simpl in *. destruct (decide (a = k)) as [->|Hne]; [done|].
    assert ((a, e) ∈ obj_set k new (logs r)) as Hin.
    { destruct Hfl as (o1 & o2 & -> & _). set_solver. }
    apply elem_of_obj_get in Hin; [|done].
    rewrite obj_get_set_ne in Hin by done.
    pose proof (first_latest_bound a e _ (k, new) Hfl) as Hbound.
    specialize (Hold a e Hin). simpl in Hbound.
    assert ((k, new) ∈ obj_set k new (logs r)) as Hk.
    { apply obj_get_elem_of, obj_get_set_eq. }
    specialize (Hbound Hk). lia. }
  split.
  - intros err. eapply Hlast.
    + by apply (reachable_exec (AddError hash err now)).
    + unfold RecordManager.addError. rewrite Hr. apply update_record_lookup.
    + done.
  - intros step. eapply Hlast.
    + by apply (reachable_exec (AddAction hash step false now)).
    + rewrite (addAction_writes hash step false now st r Hr) by done.
      apply update_record_lookup.
    + done.
Qed.

(** ** Completing a stage *)

Section SameTimes.
(** Two event mappings with the same keys in the same order and, key by key,
    the same timestamp. *)
Let same_times (o o' : list (Action * LogEntry)) : Prop :=
  Forall2 (λ p p', p.1 = p'.1 ∧ timestamp p.2 = timestamp p'.2) o o'.

Lemma obj_get_same_times (o o' : list (Action * LogEntry)) (k : Action) :
  same_times o o' → timestamp <$> obj_get k o = timestamp <$> obj_get k o'.
Proof.
  induction 1 as [|[a e] [a' e'] o o' [Ha He] _ IH]; simpl in *; [done|].
  subst a'. case_decide; simpl; [by rewrite He | done].
Qed.

Lemma foldl_later_step_same_times (r r' : FileRecord)
    (rest rest' : list (Action * LogEntry)) (acc : Outcome (option Action)) :
  same_times (logs r) (logs r') → same_times rest rest' →
  foldl (λ acc entry, Outcome_bind acc (λ latest, RecordManager.later_step r latest entry))
        acc rest
  = foldl (λ acc entry, Outcome_bind acc (λ latest, RecordManager.later_step r' latest entry))
          acc rest'.
Proof.
  intros Hlogs Hrest. revert acc.
  induction Hrest as [|[a e] [a' e'] rest rest' [Ha He] _ IH]; intros acc;
    simpl in *; [done|].
  subst a'. rewrite IH. f_equal. destruct acc as [[l|]|]; simpl; [|done|done].
  pose proof (obj_get_same_times _ _ l Hlogs) as Hl.
  destruct (obj_get l (logs r)), (obj_get l (logs r')); simplify_eq/=;
    by rewrite ?He, ?Hl.
Qed.

Lemma getLastStep_same_times (hash : string) (st st' : State) (r r' : FileRecord) :
  records st !! hash = Some r → records st' !! hash = Some r' →
  same_times (logs r) (logs r') →
  RecordManager.getLastStep hash st = RecordManager.getLastStep hash st'.
Proof.
  intros Hr Hr' Hlogs. unfold RecordManager.getLastStep, Object_entries.
  rewrite Hr, Hr', (Forall2_length _ _ _ Hlogs).
  case_match; [done|]. by apply foldl_later_step_same_times.
Qed.

Lemma set_completed_same_times (o1 o2 : list (Action * LogEntry)) (k : Action)
    (e : LogEntry) (b : bool) :
  same_times (o1 ++ (k, set_completed b e) :: o2) (o1 ++ (k, e) :: o2).
Proof.
  apply Forall2_app; [|constructor; [done|]]; by apply Forall_Forall2_diag, Forall_true.
Qed.
End SameTimes.

(** X9.  When [addAction(id, S_DONE, true)] finds the entry of the start
    stage [S], the completed flag of that entry is all it changes: the
    record of the job is the one before with that entry completed, in its
    place in the event mapping; every other record and every array is as
    before.  So the entries keep their timestamps and errors, and
    [getLastStep], [getStepErrors], [hasErrors] and [getLastError] answer as
    before: a completion does not make its stage the last step. *)
Theorem completion_changes_the_flag_only (hash : string) (S S_DONE : Action)
    (now : Timestamp) (st : State) (r : FileRecord) (e : LogEntry) :
  RecordManager.getRecord hash st = Some r →
  RecordManager.getBaseAction S_DONE = Some S →
  obj_get S (logs r) = Some e →
  let st' := RecordManager.addAction hash S_DONE true now st in
  (∃ o1 o2, logs r = o1 ++ ((S, e) :: o2)
            ∧ RecordManager.getRecord hash st'
              = Some (set_logs (o1 ++ ((S, set_completed true e) :: o2)) r))
  ∧ (∀ hash', hash' ≠ hash → RecordManager.getRecord hash' st'
                             = RecordManager.getRecord hash' st)
  ∧ arrays st' = arrays st
  ∧ RecordManager.getStepLogs hash S st' = Some (set_completed true e)
  ∧ (∀ step, step ≠ S → RecordManager.getStepLogs hash step st'
                         = RecordManager.getStepLogs hash step st)
  ∧ RecordManager.getLastStep hash st' = RecordManager.getLastStep hash st
  ∧ RecordManager.getStepErrors hash st' = RecordManager.getStepErrors hash st
  ∧ (∀ step, RecordManager.hasErrors hash step st'
             = RecordManager.hasErrors hash step st)
  ∧ RecordManager.getLastError hash st' = RecordManager.getLastError hash st.
Proof.
  unfold RecordManager.getRecord. intros Hr HS He. simpl.
  rewrite (addAction_completes hash S S_DONE now st r e Hr HS He).
  destruct (obj_set_old S (set_completed true e) e (logs r) He)
    as (o1 & o2 & Hlogs & Hnin & Hset).
  assert (RecordManager.getStepErrors hash
            (update_record hash
               (set_logs (obj_set S (set_completed true e) (logs r)) r) st)
          = RecordManager.getStepErrors hash st) as Herrors.
  { unfold RecordManager.getStepErrors, Object_entries.
    rewrite update_record_lookup, Hr. simpl. rewrite Hset, Hlogs.
    rewrite !filter_app, !fmap_app. f_equal.
    assert (RecordManager.has_error (set_completed true e)
            = RecordManager.has_error e) as Hsame by done.
    destruct (RecordManager.has_error e) eqn:Herr.
    - by rewrite !filter_cons_True by (simpl; congruence).
    - by rewrite !filter_cons_False by (simpl; congruence). }
  split_and!.
  - exists o1, o2. split; [done|].
    unfold RecordManager.getRecord. by rewrite update_record_lookup, Hset.
  - intros hash' Hne. unfold RecordManager.getRecord.
    by apply update_record_lookup_ne.
  - done.
  - unfold RecordManager.getStepLogs. rewrite update_record_lookup. simpl.
    apply obj_get_set_eq.
  - intros step Hne. unfold RecordManager.getStepLogs.
    rewrite update_record_lookup, Hr. simpl. by apply obj_get_set_ne.
  - eapply getLastStep_same_times; [apply update_record_lookup|done|].
    simpl. rewrite Hset, Hlogs. apply set_completed_same_times.
  - done.
  - intros step. unfold RecordManager.hasErrors.
    rewrite update_record_lookup, Hr. simpl.
    assert (existsb RecordManager.has_error
              (Object_values (obj_set S (set_completed true e) (logs r)))
            = existsb RecordManager.has_error (Object_values (logs r))) as Hany.
    { rewrite Hset, Hlogs. unfold Object_values.
      by rewrite !fmap_app, !existsb_app. }
    destruct step as [step|]; [|done]. rewrite Action_value_truthy.
    destruct (decide (step = S)) as [->|Hne].
    + by rewrite obj_get_set_eq, He.
    + by rewrite obj_get_set_ne.
  - unfold RecordManager.getLastError. by rewrite Herrors.
Qed.

(** ** The last error *)

Lemma getLastError_last (hash : string) (st : State) :
  RecordManager.getLastError hash st = last (RecordManager.getStepErrors hash st).
Proof.
  unfold RecordManager.getLastError. rewrite last_lookup.
  destruct (RecordManager.getStepErrors hash st) as [|x l]; [done|].
  simpl. by rewrite Nat.sub_0_r.
Qed.

Lemma stored_error (err : ErrorInfo) :
  {| message := message err; stack := stack err; action := action err |} = err.
Proof. by destruct err. Qed.

(** X10.  [getLastError(id)] goes by the order in which stages were first
    logged, not by time.  For a registered job: an error added for a stage
    that has no entry yet becomes the last error; an error added for a stage
    that has an entry takes the place of that entry, so if a stage logged
    after it carries an error, [getLastError(id)] still returns what it
    returned before. *)
Theorem getLastError_goes_by_logging_order (hash : string) (err : ErrorInfo)
    (now : Timestamp) (st : State) (r : FileRecord) :
  reachable st →
  RecordManager.getRecord hash st = Some r →
  (obj_get (action err) (logs r) = None →
   RecordManager.getLastError hash (RecordManager.addError hash err now st)
   = Some (action err, Some err))
  ∧ (∀ (i j : nat) s e x,
       Object_keys (logs r) !! i = Some (action err) →
       Object_entries (logs r) !! j = Some (s, e) →
       error e = Some x → (i < j)%nat →
       RecordManager.getLastError hash (RecordManager.addError hash err now st)
       = RecordManager.getLastError hash st).
Proof.
  unfold RecordManager.getRecord. intros Hreach Hr.
  destruct (reachable_wf st Hreach hash r Hr) as (_ & Hnd & _).
  rewrite !getLastError_last.
  unfold RecordManager.addError, RecordManager.getStepErrors, Object_entries.
  rewrite Hr, update_record_lookup. simpl. rewrite stored_error. split.
  - intros Hnone. rewrite obj_set_new by done.
    rewrite filter_app, fmap_app, filter_cons_True by done.
    simpl. by rewrite last_snoc.
  - intros i j s e x Hi Hj Hx Hlt.
    assert (is_Some (obj_get (action err) (logs r))) as [e0 He0].
    { apply obj_get_Some. by eapply list_elem_of_lookup_2. }
    destruct (obj_set_old (action err)
                {| timestamp := now; completed := Some false; error := Some err |}
                e0 (logs r) He0) as (o1 & o2 & Hlogs & Hnin & ->).
    assert (i = length o1) as ->.
    { eapply NoDup_lookup; [exact Hnd|exact Hi|].
      rewrite Hlogs. unfold Object_keys.
      by rewrite fmap_app, lookup_app_r, length_fmap, Nat.sub_diag
        by (rewrite length_fmap; lia). }
    assert ((s, e) ∈ o2) as Hin.
    { rewrite Hlogs, lookup_app_r in Hj by lia.
      destruct (j - length o1)%nat as [|n] eqn:Hn; [lia|].
      simpl in Hj. by eapply list_elem_of_lookup_2. }
    assert (∃ y, last ((λ entry : Action * LogEntry, (entry.1, error entry.2))
                         <$> filter (λ entry : Action * LogEntry,
                                       RecordManager.has_error entry.2 = true) o2)
                 = Some y) as [y Hy].
    { destruct (last _) as [y|] eqn:Hlast; [by exists y|].
      apply last_None, fmap_nil_inv in Hlast. exfalso.
      apply (filter_nil_not_elem_of _ _ (s, e) Hlast); [|done].
      simpl. apply has_error_Some. by exists x. }
    rewrite Hlogs. rewrite !filter_app, !fmap_app.
    rewrite (filter_cons _ (action err, e0)), (filter_cons _ (action err, _)).
    repeat case_decide; rewrite ?fmap_cons, !last_app, ?last_cons, Hy; done.
Qed.

(** ** A shared array of tags *)

(** X11.  [addTag] writes to the array the record holds.  When [tag] is not
    among the tags of a registered job, [addTag(id, tag)] puts it at the end
    of the collection of every record that holds the same array (the job
    itself, and any job that was given that array by [setTags]) and leaves
    the collections of the other records, and all records, as they were. *)
Theorem addTag_writes_the_shared_array (hash tag : string) (st : State)
    (r : FileRecord) :
  reachable st →
  RecordManager.getRecord hash st = Some r →
  tag ∉ tags_of st r →
  ∀ hash' r', RecordManager.getRecord hash' st = Some r' →
    RecordManager.getRecord hash' (RecordManager.addTag hash tag st) = Some r'
    ∧ tags_of (RecordManager.addTag hash tag st) r'
      = if decide (tags r' = tags r) then tags_of st r' ++ [tag]
        else tags_of st r'.
Proof.
  unfold RecordManager.getRecord. intros Hreach Hr Hnin hash' r' Hr'.
  pose proof (reachable_wf st Hreach) as Hwf.
  destruct (Hwf hash' r' Hr') as (_ & _ & Hlt).
  unfold RecordManager.addTag. rewrite Hr.
  unfold Array_includes. rewrite bool_decide_eq_false_2 by done. simpl.
  split; [done|]. unfold tags_of, deref. simpl.
  apply lookup_lt_is_Some in Hlt as [a Ha].
  rewrite list_lookup_alter, Ha. simpl.
  destruct (decide (tags r = tags r')) as [Heq|Hne];
    [rewrite Heq, Ha, decide_True by done | rewrite decide_False by done]; done.
Qed.

(** ** All records *)

Lemma first_registration_singleton (hash : string) (c : Call) (name : string) :
  first_registration hash [c] = Some name → c = StartTracking hash name.
Proof.
  unfold first_registration. destruct c; simpl; try done.
  case_decide; simpl; [|done]. by intros [= ->]; subst.
Qed.

(** The keys of [records] after a call: those before it, and the id of a
    [startTracking]. *)
Lemma exec_registered (c : Call) (st : State) (hash : string) :
  is_Some (records (exec c st) !! hash)
  ↔ is_Some (records st !! hash) ∨ ∃ name, c = StartTracking hash name.
Proof.
  split.
  - intros Hafter. destruct (records st !! hash) as [r|] eqn:Hr; [left; by eexists|].
    right. destruct (exec_unregistered c st hash Hr) as [[Hnone _]|(r' & _ & Hc & _)].
    + rewrite Hnone in Hafter. by destruct Hafter.
    + eexists. by apply first_registration_singleton.
  - intros [[r Hr]|[name ->]].
    + destruct (exec_keeps_record c st hash r Hr) as (r' & -> & _). by eexists.
    + simpl. unfold RecordManager.startTracking.
      destruct (records st !! hash) eqn:Hr; simpl; [by rewrite Hr|].
      rewrite lookup_insert_eq. by eexists.
Qed.

Lemma AllRecords_exec_order_wf (c : Call) (reg : Registry) :
  order_wf reg → order_wf (AllRecords.exec c reg).
Proof.
  intros [Hnd Hdom]. unfold order_wf, AllRecords.exec, AllRecords.order_after. simpl.
  assert (∀ hash, is_Some (records (exec c (contents reg)) !! hash)
                  ↔ hash ∈ insertion_order reg ∨ ∃ name, c = StartTracking hash name)
    as Hafter.
  { intros hash. by rewrite exec_registered, Hdom. }
  destruct c as [a|h n|h f|h s|h step b now|h t|h t|h x|h b|h p|h n|h e now];
    try (split; [done|]; intros hash; rewrite Hafter;
         split; [by left | by intros [?|[? ?]]]).
  destruct (records (contents reg) !! h) eqn:Hh.
  - split; [done|]. intros hash. rewrite Hafter. split; [by left|].
    intros [?|[name Hc]]; [done|]. injection Hc as -> _. apply Hdom. by eexists.
  - split.
    + apply NoDup_app. split_and!; [done| |apply NoDup_singleton].
      intros x Hx ->%list_elem_of_singleton. apply Hdom in Hx as [? Hx]. congruence.
    + intros hash. rewrite Hafter, elem_of_app, list_elem_of_singleton.
      split; [intros [? | ->]; [by left | right; by eexists]|].
      intros [?|[name Hc]]; [by left|]. injection Hc as -> _. by right.
Qed.

Lemma AllRecords_run_contents (cs : list Call) (reg reg' : Registry) :
  AllRecords.run cs reg = Some reg' → run cs (contents reg) = Some (contents reg').
Proof.
  revert reg. induction cs as [|c cs IH]; intros reg; simpl.
  - by intros [= <-].
  - case_decide; [|done]. intros Hrun. by apply (IH _ Hrun).
Qed.

Lemma AllRecords_run_order (cs : list Call) (reg reg' : Registry) :
  order_wf reg → AllRecords.run cs reg = Some reg' →
  order_wf reg'
  ∧ insertion_order reg'
    = insertion_order reg ++ first_occurrences (insertion_order reg) (started cs).
Proof.
  revert reg. induction cs as [|c cs IH]; intros reg Hwf; simpl.
  - intros [= <-]. by rewrite app_nil_r.
  - case_decide; [|done]. intros Hrun.
    destruct (IH _ (AllRecords_exec_order_wf c reg Hwf) Hrun) as [Hwf' ->].
    split; [done|]. destruct Hwf as [_ Hdom].
    unfold started. simpl.
    destruct c as [a|h n|h f|h s|h step b now|h t|h t|h x|h b|h p|h n|h e now];
      simpl; try done.
    destruct (records (contents reg) !! h) eqn:Hh.
    + rewrite decide_True; [done|]. apply Hdom. by eexists.
    + rewrite decide_False; [by rewrite <-app_assoc|].
      intros [? Hin]%Hdom. congruence.
Qed.

Lemma AllRecords_init_order_wf : order_wf AllRecords.init.
Proof.
  split; [apply NoDup_nil_2|]. intros hash. simpl. rewrite lookup_empty.
  split; [by intros ?%elem_of_nil | by intros [? ?]].
Qed.

(** What holds of a registry a client can reach. *)
Lemma AllRecords_reachable_facts (reg : Registry) :
  AllRecords.reachable reg →
  order_wf reg ∧ wf (contents reg).
Proof.
  intros [cs Hcs]. split.
  - by destruct (AllRecords_run_order cs _ _ AllRecords_init_order_wf Hcs).
  - apply reachable_wf. exists cs. by apply (AllRecords_run_contents cs _ _ Hcs).
Qed.

Lemma getAllRecords_elem_of (reg : Registry) (r : FileRecord) :
  order_wf reg →
  r ∈ AllRecords.getAllRecords reg ↔ ∃ hash, records (contents reg) !! hash = Some r.
Proof.
  intros [_ Hdom]. unfold AllRecords.getAllRecords. rewrite list_elem_of_omap.
  split; [intros (hash & _ & Hr); by exists hash|].
  intros [hash Hr]. exists hash. split; [|done]. apply Hdom. by eexists.
Qed.

Lemma getAllRecords_ids (reg : Registry) :
  order_wf reg → wf (contents reg) →
  id <$> AllRecords.getAllRecords reg = insertion_order reg.
Proof.
  intros [_ Hdom] Hwf. unfold AllRecords.getAllRecords.
  assert (∀ order : list string,
            Forall (λ hash, is_Some (records (contents reg) !! hash)) order →
            id <$> omap (λ hash, records (contents reg) !! hash) order = order)
    as Hids.
  { induction 1 as [|hash order [r Hr] _ IH]; [done|].
    csimpl. rewrite Hr. csimpl. rewrite IH.
    by destruct (Hwf hash r Hr) as (-> & _). }
  apply Hids, Forall_forall. intros hash. apply Hdom.
Qed.

(** X12.  [getAllRecords()] returns every record of the registry, and each
    once: a record is in the result exactly when [getRecord] finds it under
    some hash, no two records of the result have the same [id], and the
    result has as many elements as [records] has keys. *)
Theorem getAllRecords_has_every_record_once (reg : Registry) :
  AllRecords.reachable reg →
  (∀ r, r ∈ AllRecords.getAllRecords reg
        ↔ ∃ hash, RecordManager.getRecord hash (contents reg) = Some r)
  ∧ NoDup (id <$> AllRecords.getAllRecords reg)
  ∧ length (AllRecords.getAllRecords reg) = size (records (contents reg)).
Proof.
  intros Hreach. destruct (AllRecords_reachable_facts reg Hreach) as [Horder Hwf].
  pose proof (getAllRecords_ids reg Horder Hwf) as Hids.
  destruct Horder as [Hnd Hdom]. split_and!.
  - intros r. by apply getAllRecords_elem_of.
  - by rewrite Hids.
  - rewrite <-(length_fmap id), Hids, <-size_dom.
    assert (dom (records (contents reg)) = list_to_set (insertion_order reg)) as ->.
    { apply set_eq. intros hash.
      by rewrite elem_of_dom, elem_of_list_to_set, Hdom. }
    by rewrite size_list_to_set.
Qed.

(** X13.  The queries over all records agree with the queries for one job:
    [getRecordsWithErrors()] holds exactly the records [r] of
    [getAllRecords()] with [hasErrors(r.id)], and [getRecordsByStep(step)]
    exactly those for which [getStepLogs(r.id, step)] finds an entry,
    whatever its completed flag and its error; both keep the order of
    [getAllRecords()]. *)
Theorem queries_over_all_records_agree (step : Action) (reg : Registry) :
  AllRecords.reachable reg →
  (∀ r, r ∈ AllRecords.getRecordsWithErrors reg
        ↔ r ∈ AllRecords.getAllRecords reg
          ∧ RecordManager.hasErrors (id r) None (contents reg) = true)
  ∧ (∀ r, r ∈ AllRecords.getRecordsByStep step reg
          ↔ r ∈ AllRecords.getAllRecords reg
            ∧ is_Some (RecordManager.getStepLogs (id r) step (contents reg)))
  ∧ AllRecords.getRecordsWithErrors reg `sublist_of` AllRecords.getAllRecords reg
  ∧ AllRecords.getRecordsByStep step reg `sublist_of` AllRecords.getAllRecords reg.
Proof.
  intros Hreach. destruct (AllRecords_reachable_facts reg Hreach) as [Horder Hwf].
  assert (∀ r, r ∈ AllRecords.getAllRecords reg →
               records (contents reg) !! id r = Some r) as Hstored.
  { intros r [hash Hr]%getAllRecords_elem_of; [|done].
    by destruct (Hwf hash r Hr) as (-> & _). }
  unfold AllRecords.getRecordsWithErrors, AllRecords.getRecordsByStep.
  split_and!; [| |apply sublist_filter..].
  - intros r. rewrite list_elem_of_filter. unfold RecordManager.hasErrors.
    split; intros [H1 H2]; by rewrite (Hstored r) in *.
  - intros r. rewrite list_elem_of_filter. unfold RecordManager.getStepLogs.
    split; intros [H1 H2]; by rewrite (Hstored r) in *.
Qed.

(** X14.  [getAllRecords()] returns the jobs in the order in which they were
    registered: after the calls [cs] on a new registry the ids of its result
    are the ids given to [startTracking] in [cs], each at its first
    occurrence.  No other call, and no repeated [startTracking], moves a
    record. *)
Theorem getAllRecords_in_registration_order (cs : list Call) (reg : Registry) :
  AllRecords.run cs AllRecords.init = Some reg →
  id <$> AllRecords.getAllRecords reg = first_occurrences [] (started cs).
Proof.
  intros Hrun.
  destruct (AllRecords_reachable_facts reg) as [Horder Hwf]; [by exists cs|].
  rewrite (getAllRecords_ids reg Horder Hwf).
  by destruct (AllRecords_run_order cs _ _ AllRecords_init_order_wf Hrun) as [_ ->].
Qed.

(** ** Arrays of tags without [setTags] *)

Lemma exec_keeps_tags (c : Call) (st : State) (hash : string) (r : FileRecord) :
  is_setTags c = false → records st !! hash = Some r →
  ∃ r', records (exec c st) !! hash = Some r' ∧ tags r' = tags r.
Proof.
  intros Hc Hr.
  destruct c as [a|h n|h f|h s|h step b now|h t|h t|h x|h b|h p|h n|h e now];
    simpl; try done;
    unfold RecordManager.startTracking, RecordManager.setFile,
      RecordManager.setStatus, RecordManager.addAction, RecordManager.addTag,
      RecordManager.setClassification,
      RecordManager.setFormatted, RecordManager.setNewPath,
      RecordManager.setNewName, RecordManager.addError, new_array;
    try (destruct (decide (h = hash)) as [->|Hne];
         [rewrite ?Hr | destruct (records st !! h) eqn:Hh]);
    repeat case_match; simplify_eq; simpl;
    rewrite ?lookup_insert_eq, ?lookup_insert_ne by done;
    by eexists.
Qed.

Lemma exec_tags_separate (c : Call) (st : State) :
  is_setTags c = false → wf st → tags_separate st → tags_separate (exec c st).
Proof.
  intros Hc Hwf Hsep h1 h2 r1' r2' Hr1' Hr2' Htags.
  destruct (records st !! h1) as [r1|] eqn:Hr1, (records st !! h2) as [r2|] eqn:Hr2.
  - destruct (exec_keeps_tags c st h1 r1 Hc Hr1) as (? & ? & Ht1).
    destruct (exec_keeps_tags c st h2 r2 Hc Hr2) as (? & ? & Ht2).
    simplify_eq. apply (Hsep h1 h2 r1 r2 Hr1 Hr2). congruence.
  - destruct (exec_keeps_tags c st h1 r1 Hc Hr1) as (? & ? & Ht1). simplify_eq.
    destruct (exec_unregistered c st h2 Hr2) as [[? _]|(? & ? & Hc2 & _)];
      [congruence|]. simplify_eq.
    apply first_registration_singleton in Hc2 as ->. simpl in *.
    unfold RecordManager.startTracking in *. rewrite Hr2 in *. simpl in *.
    rewrite lookup_insert_eq in Hr2'. simplify_eq. simpl in *.
    rewrite lookup_insert_ne in Hr1' by congruence.
    destruct (Hwf h1 r1 Hr1) as (_ & _ & Hlt).
    exfalso. rewrite <-Hr2' in Htags. simpl in Htags. lia.
  - destruct (exec_keeps_tags c st h2 r2 Hc Hr2) as (? & ? & Ht2). simplify_eq.
    destruct (exec_unregistered c st h1 Hr1) as [[? _]|(? & ? & Hc1 & _)];
      [congruence|]. simplify_eq.
    apply first_registration_singleton in Hc1 as ->. simpl in *.
    unfold RecordManager.startTracking in *. rewrite Hr1 in *. simpl in *.
    rewrite lookup_insert_eq in Hr1'. simplify_eq. simpl in *.
    rewrite lookup_insert_ne in Hr2' by congruence.
    destruct (Hwf h2 r2 Hr2) as (_ & _ & Hlt).
    exfalso. rewrite <-Hr1' in Htags. simpl in Htags. lia.
  - destruct (exec_unregistered c st h1 Hr1) as [[? _]|(? & ? & Hc1 & _)];
      [congruence|].
    destruct (exec_unregistered c st h2 Hr2) as [[? _]|(? & ? & Hc2 & _)];
      [congruence|].
    apply first_registration_singleton in Hc1, Hc2. congruence.
Qed.

Lemma run_tags_separate (cs : list Call) (st st' : State) :
  (∀ c, c ∈ cs → is_setTags c = false) →
  wf st → tags_separate st → run cs st = Some st' → tags_separate st'.
Proof.
  revert st. induction cs as [|c cs IH]; intros st Hcs Hwf Hsep; simpl.
  - by intros [= <-].
  - case_decide; [|done]. apply IH.
    + intros c' Hc'. apply Hcs. by right.
    + by apply exec_wf.
    + apply exec_tags_separate; [|done|done]. apply Hcs. by left.
Qed.

(** X15.  [startTracking] gives every record an array of its own, and only
    [setTags] makes two records hold the same one: in a state reached
    without a call of [setTags], [addTag(id, tag)] leaves the tags of every
    other job as they were. *)
Theorem addTag_reaches_one_job_without_setTags (cs : list Call) (st : State)
    (hash tag hash' : string) (r' : FileRecord) :
  run cs RecordManager.init = Some st →
  (∀ c, c ∈ cs → is_setTags c = false) →
  hash' ≠ hash →
  RecordManager.getRecord hash' st = Some r' →
  RecordManager.getRecord hash' (RecordManager.addTag hash tag st) = Some r'
  ∧ tags_of (RecordManager.addTag hash tag st) r' = tags_of st r'.
Proof.
  unfold RecordManager.getRecord. intros Hrun Hcs Hne Hr'.
  assert (tags_separate st) as Hsep.
  { eapply run_tags_separate; [done|apply init_wf| |done].
    intros h1 h2 r1 r2. simpl. by rewrite lookup_empty. }
  unfold RecordManager.addTag.
  destruct (records st !! hash) as [r|] eqn:Hr; [|done].
  case_match; [|done]. simpl. split; [done|].
  unfold tags_of, deref. simpl. rewrite list_lookup_alter_ne; [done|].
  intros Heq. apply Hne. symmetry. by apply (Hsep hash hash' r r').
Qed.

(** * The rest of the class at sample runs *)

Example two_jobs_runs :
  AllRecords.run two_jobs AllRecords.init = Some (AllRecords.after two_jobs).
Proof. reflexivity. Qed.

Example two_jobs_getAllRecords :
  AllRecords.getAllRecords (AllRecords.after two_jobs) = [two_jobs_h1; two_jobs_h2].
Proof. reflexivity. Qed.

Example two_jobs_getRecordsWithErrors :
  AllRecords.getRecordsWithErrors (AllRecords.after two_jobs) = [two_jobs_h1].
Proof. reflexivity. Qed.

Example two_jobs_getRecordsByStep :
  AllRecords.getRecordsByStep CLASSIFY (AllRecords.after two_jobs)
  = [two_jobs_h1; two_jobs_h2].
Proof. reflexivity. Qed.

Example late_error_is_not_the_last_error :
  RecordManager.getLastError "h1"
    (RecordManager.addError "h1" late_error 200%Z (after scenario))
  = Some (TAGGING, Some timeout_error).
Proof. reflexivity. Qed.

Example interleaved_status :
  status <$> RecordManager.getRecord "h1" (after (scenario ++ interleaved))
  = Some Completed.
Proof. reflexivity. Qed.

Example interleaved_own_calls :
  filter (λ c, call_hash c = Some "h1") interleaved
  = [ SetStatus "h1" Processing; SetNewName "h1" "report.pdf";
      SetStatus "h1" Completed; AddError "h1" late_error 130%Z ].
Proof. reflexivity. Qed.

Lemma AllRecords_after_reachable (cs : list Call) :
  AllRecords.run cs AllRecords.init = Some (AllRecords.after cs) →
  AllRecords.reachable (AllRecords.after cs).
Proof. intros Hrun. by exists cs. Qed.

Lemma nothing_is_removed_witness :
  run follow_up (after scenario) = Some (after (scenario ++ follow_up))
  ∧ RecordManager.getRecord "h1" (after scenario) = Some scenario_record
  ∧ ∃ r', RecordManager.getRecord "h1" (after (scenario ++ follow_up)) = Some r'
          ∧ id r' = id scenario_record
          ∧ originalName r' = originalName scenario_record
          ∧ Object_keys (logs scenario_record) `prefix_of` Object_keys (logs r')
          ∧ (∀ step,
               is_Some (RecordManager.getStepLogs "h1" step (after scenario)) →
               is_Some (RecordManager.getStepLogs "h1" step
                          (after (scenario ++ follow_up)))).
Proof.
  split; [reflexivity|]. split; [reflexivity|].
  apply (nothing_is_removed follow_up (after scenario)
           (after (scenario ++ follow_up)) "h1" scenario_record); reflexivity.
Defined.

Lemma registered_by_first_startTracking_witness :
  run two_jobs RecordManager.init = Some (after two_jobs)
  ∧ originalName <$> RecordManager.getRecord "h1" (after two_jobs)
    = first_registration "h1" two_jobs
  ∧ id <$> RecordManager.getRecord "h1" (after two_jobs)
    = (λ _, "h1") <$> first_registration "h1" two_jobs.
Proof.
  split; [reflexivity|].
  apply (registered_by_first_startTracking two_jobs (after two_jobs) "h1").
  reflexivity.
Defined.

Lemma events_change_by_addAction_and_addError_only_witness :
  writes_events (SetTags "h1" 0) = false
  ∧ RecordManager.getStepErrors "h1" (exec (SetTags "h1" 0) (after scenario))
    = RecordManager.getStepErrors "h1" (after scenario)
  ∧ (∀ step, RecordManager.hasErrors "h1" step (exec (SetTags "h1" 0) (after scenario))
             = RecordManager.hasErrors "h1" step (after scenario))
  ∧ (∀ step, RecordManager.getStepLogs "h1" step (exec (SetTags "h1" 0) (after scenario))
             = RecordManager.getStepLogs "h1" step (after scenario))
  ∧ RecordManager.getLastStep "h1" (exec (SetTags "h1" 0) (after scenario))
    = RecordManager.getLastStep "h1" (after scenario)
  ∧ RecordManager.getLastError "h1" (exec (SetTags "h1" 0) (after scenario))
    = RecordManager.getLastError "h1" (after scenario).
Proof.
  split; [reflexivity|].
  apply (events_change_by_addAction_and_addError_only (SetTags "h1" 0)
           (after scenario) "h1").
  reflexivity.
Defined.

Lemma members_hold_the_last_write_witness :
  run interleaved (after scenario) = Some (after (scenario ++ interleaved))
  ∧ RecordManager.getRecord "h1" (after scenario) = Some scenario_record
  ∧ ∃ r', RecordManager.getRecord "h1" (after (scenario ++ interleaved)) = Some r'
          ∧ file r'
            = from_option Some (file scenario_record)
                (last_given (gives_file "h1") interleaved)
          ∧ status r'
            = default (status scenario_record)
                (last_given (gives_status "h1") interleaved)
          ∧ classification r'
            = from_option Some (classification scenario_record)
                (last_given (gives_classification "h1") interleaved)
          ∧ formatted r'
            = default (formatted scenario_record)
                (last_given (gives_formatted "h1") interleaved)
          ∧ newPath r'
            = from_option Some (newPath scenario_record)
                (last_given (gives_newPath "h1") interleaved)
          ∧ newName r'
            = from_option Some (newName scenario_record)
                (last_given (gives_newName "h1") interleaved)
          ∧ tags r'
            = default (tags scenario_record)
                (last_given (gives_tags "h1") interleaved).
Proof.
  split; [reflexivity|]. split; [reflexivity|].
  apply (members_hold_the_last_write interleaved (after scenario)
           (after (scenario ++ interleaved)) "h1" scenario_record); reflexivity.
Defined.


Lemma getBaseAction_pairs_one_to_one_witness :
  RecordManager.getBaseAction CLASSIFY_DONE = Some CLASSIFY
  ∧ CLASSIFY ≠ CLASSIFY_DONE
  ∧ RecordManager.getBaseAction CLASSIFY = None
  ∧ (RecordManager.getBaseAction TAGGING_DONE = Some CLASSIFY →
     TAGGING_DONE = CLASSIFY_DONE).
Proof.
  split; [reflexivity|].
  apply (getBaseAction_pairs_one_to_one CLASSIFY_DONE TAGGING_DONE CLASSIFY).
  reflexivity.
Defined.

Lemma addAction_start_drops_error_witness :
  reachable (after scenario)
  ∧ RecordManager.getRecord "h1" (after scenario) = Some scenario_record
  ∧ RecordManager.getStepLogs "h1" TAGGING
      (RecordManager.addAction "h1" TAGGING false 130%Z (after scenario))
    = Some {| timestamp := 130%Z; completed := Some false; error := None |}
  ∧ RecordManager.hasErrors "h1" (Some TAGGING)
      (RecordManager.addAction "h1" TAGGING false 130%Z (after scenario)) = false
  ∧ (∀ oe, (TAGGING, oe) ∉ RecordManager.getStepErrors "h1"
                             (RecordManager.addAction "h1" TAGGING false 130%Z
                                (after scenario))).
Proof.
  split; [apply after_reachable; reflexivity|]. split; [reflexivity|].
  apply (addAction_start_drops_error "h1" TAGGING 130%Z (after scenario)
           scenario_record).
  - apply after_reachable; reflexivity.
  - reflexivity.
Defined.

Lemma scenario_timestamps_before_200 :
  ∀ k e, obj_get k (logs scenario_record) = Some e → (timestamp e < 200)%Z.
Proof.
  intros k e. simpl. repeat case_decide; intros [= <-]; simpl; lia.
Qed.

Lemma latest_write_is_the_last_step_witness :
  reachable (after scenario)
  ∧ RecordManager.getRecord "h1" (after scenario) = Some scenario_record
  ∧ (∀ k e, obj_get k (logs scenario_record) = Some e → (timestamp e < 200)%Z)
  ∧ (∀ err, RecordManager.getLastStep "h1"
              (RecordManager.addError "h1" err 200%Z (after scenario))
            = Returns (Some (action err)))
  ∧ (∀ step, RecordManager.getLastStep "h1"
               (RecordManager.addAction "h1" step false 200%Z (after scenario))
             = Returns (Some step)).
Proof.
  split; [apply after_reachable; reflexivity|]. split; [reflexivity|].
  split; [exact scenario_timestamps_before_200|].
  apply (latest_write_is_the_last_step "h1" 200%Z (after scenario) scenario_record).
  - apply after_reachable; reflexivity.
  - reflexivity.
  - exact scenario_timestamps_before_200.
Defined.

Lemma completion_changes_the_flag_only_witness :
  RecordManager.getRecord "h1" (after two_jobs) = Some two_jobs_h1
  ∧ RecordManager.getBaseAction CLASSIFY_DONE = Some CLASSIFY
  ∧ obj_get CLASSIFY (logs two_jobs_h1)
    = Some {| timestamp := 100%Z; completed := Some false; error := None |}
  ∧ (∃ o1 o2,
       logs two_jobs_h1
       = o1 ++ ((CLASSIFY,
                 {| timestamp := 100%Z; completed := Some false; error := None |})
                :: o2)
       ∧ RecordManager.getRecord "h1"
           (RecordManager.addAction "h1" CLASSIFY_DONE true 300%Z (after two_jobs))
         = Some (set_logs
                   (o1 ++ ((CLASSIFY,
                            set_completed true
                              {| timestamp := 100%Z; completed := Some false;
                                 error := None |}) :: o2))
                   two_jobs_h1))
  ∧ (∀ hash', hash' ≠ "h1" →
       RecordManager.getRecord hash'
         (RecordManager.addAction "h1" CLASSIFY_DONE true 300%Z (after two_jobs))
       = RecordManager.getRecord hash' (after two_jobs))
  ∧ arrays (RecordManager.addAction "h1" CLASSIFY_DONE true 300%Z (after two_jobs))
    = arrays (after two_jobs)
  ∧ RecordManager.getStepLogs "h1" CLASSIFY
      (RecordManager.addAction "h1" CLASSIFY_DONE true 300%Z (after two_jobs))
    = Some (set_completed true
              {| timestamp := 100%Z; completed := Some false; error := None |})
  ∧ (∀ step, step ≠ CLASSIFY →
             RecordManager.getStepLogs "h1" step
               (RecordManager.addAction "h1" CLASSIFY_DONE true 300%Z (after two_jobs))
             = RecordManager.getStepLogs "h1" step (after two_jobs))
  ∧ RecordManager.getLastStep "h1"
      (RecordManager.addAction "h1" CLASSIFY_DONE true 300%Z (after two_jobs))
    = RecordManager.getLastStep "h1" (after two_jobs)
  ∧ RecordManager.getStepErrors "h1"
      (RecordManager.addAction "h1" CLASSIFY_DONE true 300%Z (after two_jobs))
    = RecordManager.getStepErrors "h1" (after two_jobs)
  ∧ (∀ step, RecordManager.hasErrors "h1" step
               (RecordManager.addAction "h1" CLASSIFY_DONE true 300%Z (after two_jobs))
             = RecordManager.hasErrors "h1" step (after two_jobs))
  ∧ RecordManager.getLastError "h1"
      (RecordManager.addAction "h1" CLASSIFY_DONE true 300%Z (after two_jobs))
    = RecordManager.getLastError "h1" (after two_jobs).
Proof.
  split; [reflexivity|]. split; [reflexivity|]. split; [reflexivity|].
  apply (completion_changes_the_flag_only "h1" CLASSIFY CLASSIFY_DONE 300%Z
           (after two_jobs) two_jobs_h1
           {| timestamp := 100%Z; completed := Some false; error := None |});
    reflexivity.
Defined.

Lemma getLastError_goes_by_logging_order_witness :
  reachable (after scenario)
  ∧ RecordManager.getRecord "h1" (after scenario) = Some scenario_record
  ∧ (obj_get (action late_error) (logs scenario_record) = None →
     RecordManager.getLastError "h1"
       (RecordManager.addError "h1" late_error 200%Z (after scenario))
     = Some (action late_error, Some late_error))
  ∧ (∀ (i j : nat) s e x,
       Object_keys (logs scenario_record) !! i = Some (action late_error) →
       Object_entries (logs scenario_record) !! j = Some (s, e) →
       error e = Some x → (i < j)%nat →
       RecordManager.getLastError "h1"
         (RecordManager.addError "h1" late_error 200%Z (after scenario))
       = RecordManager.getLastError "h1" (after scenario)).
Proof.
  split; [apply after_reachable; reflexivity|]. split; [reflexivity|].
  apply (getLastError_goes_by_logging_order "h1" late_error 200%Z (after scenario)
           scenario_record).
  - apply after_reachable; reflexivity.
  - reflexivity.
Defined.

Lemma addTag_writes_the_shared_array_witness :
  reachable (after shared_tags)
  ∧ RecordManager.getRecord "h1" (after shared_tags) = Some shared_tags_h1
  ∧ ("z" ∉ tags_of (after shared_tags) shared_tags_h1)
  ∧ RecordManager.getRecord "h2" (after shared_tags) = Some shared_tags_record
  ∧ RecordManager.getRecord "h2" (RecordManager.addTag "h1" "z" (after shared_tags))
    = Some shared_tags_record
  ∧ tags_of (RecordManager.addTag "h1" "z" (after shared_tags)) shared_tags_record
    = if decide (tags shared_tags_record = tags shared_tags_h1)
      then tags_of (after shared_tags) shared_tags_record ++ ["z"]
      else tags_of (after shared_tags) shared_tags_record.
Proof.
  assert ("z" ∉ tags_of (after shared_tags) shared_tags_h1) as Hnin.
  { apply (bool_decide_unpack _). vm_compute. reflexivity. }
  split; [apply after_reachable; reflexivity|]. split; [reflexivity|].
  split; [exact Hnin|]. split; [reflexivity|].
  apply (addTag_writes_the_shared_array "h1" "z" (after shared_tags) shared_tags_h1).
  - apply after_reachable; reflexivity.
  - reflexivity.
  - exact Hnin.
  - reflexivity.
Defined.

Lemma getAllRecords_has_every_record_once_witness :
  AllRecords.reachable (AllRecords.after two_jobs)
  ∧ (∀ r, r ∈ AllRecords.getAllRecords (AllRecords.after two_jobs)
          ↔ ∃ hash, RecordManager.getRecord hash
                      (contents (AllRecords.after two_jobs)) = Some r)
  ∧ NoDup (id <$> AllRecords.getAllRecords (AllRecords.after two_jobs))
  ∧ length (AllRecords.getAllRecords (AllRecords.after two_jobs))
    = size (records (contents (AllRecords.after two_jobs))).
Proof.
  split; [apply AllRecords_after_reachable; reflexivity|].
  apply (getAllRecords_has_every_record_once (AllRecords.after two_jobs)).
  apply AllRecords_after_reachable; reflexivity.
Defined.

Lemma queries_over_all_records_agree_witness :
  AllRecords.reachable (AllRecords.after two_jobs)
  ∧ (∀ r, r ∈ AllRecords.getRecordsWithErrors (AllRecords.after two_jobs)
          ↔ r ∈ AllRecords.getAllRecords (AllRecords.after two_jobs)
            ∧ RecordManager.hasErrors (id r) None
                (contents (AllRecords.after two_jobs)) = true)
  ∧ (∀ r, r ∈ AllRecords.getRecordsByStep TAGGING (AllRecords.after two_jobs)
          ↔ r ∈ AllRecords.getAllRecords (AllRecords.after two_jobs)
            ∧ is_Some (RecordManager.getStepLogs (id r) TAGGING
                         (contents (AllRecords.after two_jobs))))
  ∧ AllRecords.getRecordsWithErrors (AllRecords.after two_jobs)
      `sublist_of` AllRecords.getAllRecords (AllRecords.after two_jobs)
  ∧ AllRecords.getRecordsByStep TAGGING (AllRecords.after two_jobs)
      `sublist_of` AllRecords.getAllRecords (AllRecords.after two_jobs).
Proof.
  split; [apply AllRecords_after_reachable; reflexivity|].
  apply (queries_over_all_records_agree TAGGING (AllRecords.after two_jobs)).
  apply AllRecords_after_reachable; reflexivity.
Defined.

Lemma getAllRecords_in_registration_order_witness :
  AllRecords.run two_jobs AllRecords.init = Some (AllRecords.after two_jobs)
  ∧ id <$> AllRecords.getAllRecords (AllRecords.after two_jobs)
    = first_occurrences [] (started two_jobs).
Proof.
  split; [reflexivity|].
  apply (getAllRecords_in_registration_order two_jobs (AllRecords.after two_jobs)).
  reflexivity.
Defined.

Lemma two_jobs_without_setTags : ∀ c, c ∈ two_jobs → is_setTags c = false.
Proof. apply Forall_forall. unfold two_jobs. by repeat constructor. Qed.

Lemma addTag_reaches_one_job_without_setTags_witness :
  run two_jobs RecordManager.init = Some (after two_jobs)
  ∧ (∀ c, c ∈ two_jobs → is_setTags c = false)
  ∧ "h2" ≠ "h1"
  ∧ RecordManager.getRecord "h2" (after two_jobs) = Some two_jobs_h2
  ∧ RecordManager.getRecord "h2" (RecordManager.addTag "h1" "y" (after two_jobs))
    = Some two_jobs_h2
  ∧ tags_of (RecordManager.addTag "h1" "y" (after two_jobs)) two_jobs_h2
    = tags_of (after two_jobs) two_jobs_h2.
Proof.
  split; [reflexivity|]. split; [exact two_jobs_without_setTags|].
  split; [discriminate|]. split; [reflexivity|].
  apply (addTag_reaches_one_job_without_setTags two_jobs (after two_jobs)
           "h1" "y" "h2" two_jobs_h2).
  - reflexivity.
  - exact two_jobs_without_setTags.
  - discriminate.
  - reflexivity.
Defined.
